(** * Parameter-constraint validation (ansible.module_utils.common.validation)

    A shallow embedding of the check functions of
    [lib/ansible/module_utils/common/validation.py] and the properties
    they satisfy.

    Conventions of the embedding:
    - the parameter mapping [module_parameters] is a finite map from
      names to Python values ([gmap string value]); the checks only test
      membership, look keys up and intersect with the key set;
    - a dictionary that a check iterates over ([requirements] of
      [check_required_by], [argument_spec]) is the list of its items in
      iteration order;
    - a check either returns its result or raises: [Return] / [Raise];
    - an argument that may be [None] is an [option]. *)

From stdpp Require Import gmap strings list fin_maps sorting.
From Stdlib Require Import Ascii.
From Stdlib Require OrderedTypeEx.

Set Warnings "-register-all".

(** ** Python values

    The values of parameters that the checks tell apart: [None],
    booleans, integers, strings and sequences. *)

Inductive value : Type :=
| VNone
| VBool (b : bool)
| VInt (z : Z)
| VStr (s : string)
| VList (items : list value).

(** [bool(v)]: what [if v:] and [not v] test. *)
Definition truthy (v : value) : bool :=
  match v with
  | VNone => false
  | VBool b => b
  | VInt z => negb (z =? 0)%Z
  | VStr s => negb (String.eqb s "")
  | VList items => match items with [] => false | _ :: _ => true end
  end.

(** [a == b].  [bool] is a subclass of [int] in Python: [True == 1] and
    [False == 0] hold, also inside lists; strings, [None] and lists only
    equal values of their own kind. *)
Fixpoint py_eq (a b : value) : bool :=
  match a, b with
  | VNone, VNone => true
  | VBool x, VBool y => Bool.eqb x y
  | VInt x, VInt y => (x =? y)%Z
  | VBool x, VInt y => (Z.b2z x =? y)%Z
  | VInt x, VBool y => (x =? Z.b2z y)%Z
  | VStr x, VStr y => String.eqb x y
  | VList xs, VList ys =>
      (fix all_eq (xs ys : list value) {struct xs} : bool :=
         match xs, ys with
         | [], [] => true
         | x :: xs', y :: ys' => py_eq x y && all_eq xs' ys'
         | _, _ => false
         end) xs ys
  | _, _ => false
  end.

(** [v is None] *)
Definition is_none (v : value) : bool :=
  match v with VNone => true | _ => false end.

(** ** Terms

    A term is a single parameter name or a sequence (list, tuple) of
    names. *)
Inductive term : Type :=
| TName (name : string)
| TSeq (names : list string).

(** Modelled from the spec: [is_iterable], which [validation.py]
    imports from [ansible.module_utils.common.collections], a module
    that is not embedded here.  "A non-sequence term is treated as a
    singleton sequence": a bare name (a string) is not iterable, a
    sequence of names is. *)
Definition is_iterable (t : term) : bool :=
  match t with
  | TName _ => false
  | TSeq _ => true
  end.

(** Iterating a Python string yields its characters as one-character
    strings. *)
Fixpoint iter_str (s : string) : list string :=
  match s with
  | EmptyString => []
  | String c rest => String c EmptyString :: iter_str rest
  end.

(** [for x in term] / [sep.join(term)]: the items a term yields. *)
Definition iter_term (t : term) : list string :=
  match t with
  | TName s => iter_str s
  | TSeq names => names
  end.

(** [isinstance(value, string_types)] *)
Definition is_string (t : term) : bool :=
  match t with
  | TName _ => true
  | TSeq _ => false
  end.

(** The names a term stands for: [[t]] for a bare name [t], as in
    [terms = [terms]] and [value = [value]], and the sequence itself
    otherwise. *)
Definition listify (t : term) : list string :=
  match t with
  | TName s => [s]
  | TSeq names => names
  end.

(** [sep.join(items)] on strings. *)
Definition join (sep : string) (items : list string) : string :=
  String.concat sep items.

(** [key in module_parameters] *)
Definition has_key (module_parameters : gmap string value) (key : string) : bool :=
  bool_decide (key ∈ dom module_parameters).

(** ** Results and exceptions *)

(** Every failure of a check is a [TypeError] carrying the rendered
    message ([to_native] leaves a native string as it is).
    [JoinTypeError i] is the [TypeError] that [str.join] itself raises
    when item [i] of its argument is not a string. *)
Inductive exn : Type :=
| TypeError (msg : string)
| JoinTypeError (index : nat).

Inductive result (A : Type) : Type :=
| Return (a : A)
| Raise (e : exn).
Arguments Return {A} a.
Arguments Raise {A} e.

(** [sep.join(fields)] where the items are terms: a name is a string, a
    sequence is not. *)
Fixpoint field_names (i : nat) (fields : list term) : nat + list string :=
  match fields with
  | [] => inr []
  | TSeq _ :: _ => inl i
  | TName s :: rest =>
      match field_names (S i) rest with
      | inl j => inl j
      | inr names => inr (s :: names)
      end
  end.

Definition join_fields (sep : string) (fields : list term) : result string :=
  match field_names 0 fields with
  | inl i => Raise (JoinTypeError i)
  | inr names => Return (join sep names)
  end.

(** ** count_terms *)

Definition count_terms (terms : term) (module_parameters : gmap string value) : nat :=
  let terms := if negb (is_iterable terms) then listify terms else iter_term terms in
  size ((list_to_set terms : gset string) ∩ dom module_parameters).

(** ** check_mutually_exclusive *)

(** The first loop: the terms appended to [results]. *)
Definition mutually_exclusive_results
    (terms : list term) (module_parameters : gmap string value) : list term :=
  filter (λ check, 1 < count_terms check module_parameters) terms.

Definition check_mutually_exclusive
    (terms : option (list term)) (module_parameters : gmap string value)
  : result (list term) :=
  match terms with
  | None => Return []
  | Some terms =>
      let results := mutually_exclusive_results terms module_parameters in
      match results with
      | [] => Return results
      | _ :: _ =>
          let full_list := (λ check, join "|" (iter_term check)) <$> results in
          Raise (TypeError
                   ("parameters are mutually exclusive: " +:+ join ", " full_list))
      end
  end.

(** ** check_required_one_of *)

Definition required_one_of_results
    (terms : list term) (module_parameters : gmap string value) : list term :=
  filter (λ term, count_terms term module_parameters = 0) terms.

Definition check_required_one_of
    (terms : option (list term)) (module_parameters : gmap string value)
  : result (list term) :=
  match terms with
  | None => Return []
  | Some terms =>
      let results := required_one_of_results terms module_parameters in
      match results with
      | [] => Return results
      | term :: _ =>
          (* [for term in results: ... raise]: the first iteration raises *)
          Raise (TypeError
                   ("one of the following is required: "
                    +:+ join ", " (iter_term term)))
      end
  end.

(** ** check_required_together *)

(** [counts = [count_terms(field, module_parameters) for field in term]] *)
Definition together_counts
    (term : list term) (module_parameters : gmap string value) : list nat :=
  (λ field, count_terms field module_parameters) <$> term.

Definition required_together_results
    (terms : list (list term)) (module_parameters : gmap string value)
  : list (list term) :=
  filter (λ term,
            let counts := together_counts term module_parameters in
            let non_zero := filter (λ c, 0 < c) counts in
            0 < length non_zero ∧ 0 ∈ counts) terms.

Definition check_required_together
    (terms : option (list (list term))) (module_parameters : gmap string value)
  : result (list (list term)) :=
  match terms with
  | None => Return []
  | Some terms =>
      let results := required_together_results terms module_parameters in
      match results with
      | [] => Return results
      | term :: _ =>
          match join_fields ", " term with
          | Return names =>
              Raise (TypeError ("parameters are required together: " +:+ names))
          | Raise e => Raise e
          end
      end
  end.

(** ** check_required_by *)

(** [d[key] = v] on a dictionary kept as its items in iteration order:
    an existing key keeps its position. *)
Fixpoint dict_set {V : Type} (key : string) (v : V) (d : list (string * V))
  : list (string * V) :=
  match d with
  | [] => [(key, v)]
  | (k, w) :: rest =>
      if String.eqb key k then (key, v) :: rest
      else (k, w) :: dict_set key v rest
  end.

(** The items of a dictionary have pairwise distinct keys. *)
Definition dict_wf {V : Type} (d : list (string * V)) : Prop := NoDup d.*1.

(** [name not in module_parameters or module_parameters[name] is None] *)
Definition unset (module_parameters : gmap string value) (name : string) : bool :=
  match module_parameters !! name with
  | None => true
  | Some v => is_none v
  end.

(** The body of the loop over [requirements.items()], threading
    [result]. *)
Definition required_by_step (module_parameters : gmap string value)
    (result : list (string * list string)) (item : string * term)
  : list (string * list string) :=
  let '(key, value) := item in
  if unset module_parameters key then result
  else
    (* Support strings (single-item lists) *)
    let value := if is_string value then listify value else iter_term value in
    dict_set key
      (filter (λ required, unset module_parameters required = true) value)
      result.

Definition required_by_result
    (requirements : list (string * term)) (module_parameters : gmap string value)
  : list (string * list string) :=
  foldl (required_by_step module_parameters) [] requirements.

Definition check_required_by
    (requirements : option (list (string * term)))
    (module_parameters : gmap string value)
  : result (list (string * list string)) :=
  match requirements with
  | None => Return []
  | Some requirements =>
      let result := required_by_result requirements module_parameters in
      match filter (λ item : string * list string, 0 < length item.2) result with
      | [] => Return result
      | (key, missing) :: _ =>
          Raise (TypeError
                   ("missing parameter(s) required by '" +:+ key +:+ "': "
                    +:+ join ", " missing))
      end
  end.

(** ** check_required_arguments *)

(** [v.get('required', False)] on a parameter descriptor. *)
Definition spec_required (v : gmap string value) : value :=
  default (VBool false) (v !! "required").

Definition required_arguments_missing
    (argument_spec : list (string * gmap string value))
    (module_parameters : gmap string value) : list string :=
  (filter (λ item : string * gmap string value,
             truthy (spec_required item.2) = true
             ∧ has_key module_parameters item.1 = false) argument_spec).*1.

Definition check_required_arguments
    (argument_spec : option (list (string * gmap string value)))
    (module_parameters : gmap string value)
  : result (list string) :=
  match argument_spec with
  | None => Return []
  | Some argument_spec =>
      let missing := required_arguments_missing argument_spec module_parameters in
      match missing with
      | [] => Return missing
      | _ :: _ =>
          Raise (TypeError ("missing required arguments: " +:+ join ", " missing))
      end
  end.

(** ** check_required_if *)

(** One entry of [requirements]: a 3-element rule, or a 4-element rule
    whose last element is [is_one_of]. *)
Inductive requirement : Type :=
| Req3 (key : string) (val : value) (requirements : list term)
| Req4 (key : string) (val : value) (requirements : list term) (is_one_of : value).

Definition req_key (req : requirement) : string :=
  match req with Req3 key _ _ | Req4 key _ _ _ => key end.
Definition req_val (req : requirement) : value :=
  match req with Req3 _ val _ | Req4 _ val _ _ => val end.
Definition req_requirements (req : requirement) : list term :=
  match req with Req3 _ _ rs | Req4 _ _ rs _ => rs end.
(** [is_one_of = False] unless the rule has a 4th element. *)
Definition req_is_one_of (req : requirement) : value :=
  match req with Req3 _ _ _ => VBool false | Req4 _ _ _ b => b end.

(** The dictionary [missing] appended to [results]. *)
Record missing_report : Type := MissingReport {
  missing : list term;
  requires : string;
  parameter : string;
  value_ : value;
  requirements_ : list term
}.

(** [key in module_parameters and module_parameters[key] == val] *)
Definition req_applies (req : requirement) (module_parameters : gmap string value)
  : bool :=
  match module_parameters !! req_key req with
  | None => false
  | Some v => py_eq v (req_val req)
  end.

(** The body of the loop over [requirements]: [Some missing] when
    [missing] is appended to [results]. *)
Definition eval_requirement (req : requirement) (module_parameters : gmap string value)
  : option missing_report :=
  let key := req_key req in
  let val := req_val req in
  let requirements := req_requirements req in
  let is_one_of := req_is_one_of req in
  let max_missing_count := if truthy is_one_of then length requirements else 0 in
  let requires := if truthy is_one_of then "any" else "all" in
  let missing :=
    if req_applies req module_parameters
    then filter (λ check, count_terms check module_parameters = 0) requirements
    else [] in
  if negb (length missing =? 0) && (max_missing_count <=? length missing)
  then Some (MissingReport missing requires key val requirements)
  else None.

Definition required_if_results
    (requirements : list requirement) (module_parameters : gmap string value)
  : list missing_report :=
  omap (λ req, eval_requirement req module_parameters) requirements.

Section RequiredIf.

(** [str(v)], as ["%s" % v] renders a value (a Python builtin). *)
Variable py_str : value → string.

Definition check_required_if
    (requirements : option (list requirement))
    (module_parameters : gmap string value)
  : result (list missing_report) :=
  match requirements with
  | None => Return []
  | Some requirements =>
      let results := required_if_results requirements module_parameters in
      match results with
      | [] => Return results
      | report :: _ =>
          (* [for missing in results: ... raise]: the first iteration raises *)
          match join_fields ", " report.(missing) with
          | Return names =>
              Raise (TypeError
                       (report.(parameter) +:+ " is " +:+ py_str report.(value_)
                        +:+ " but " +:+ report.(requires)
                        +:+ " of the following are missing: " +:+ names))
          | Raise e => Raise e
          end
      end
  end.

End RequiredIf.

(** ** check_missing_parameters *)

(** [module_parameters.get(param)] *)
Definition dict_get (module_parameters : gmap string value) (param : string) : value :=
  default VNone (module_parameters !! param).

Definition missing_parameters
    (module_parameters : gmap string value) (required_parameters : list string)
  : list string :=
  filter (λ param, truthy (dict_get module_parameters param) = false)
         required_parameters.

Definition check_missing_parameters
    (module_parameters : gmap string value)
    (required_parameters : option (list string))
  : result (list string) :=
  match required_parameters with
  | None => Return []
  | Some required_parameters =>
      let missing_params := missing_parameters module_parameters required_parameters in
      match missing_params with
      | [] => Return missing_params
      | _ :: _ =>
          Raise (TypeError
                   ("missing required arguments: " +:+ join ", " missing_params))
      end
  end.

(** * Vocabulary of the properties *)

(** The number of distinct names of a term that are keys of the
    mapping. *)
Definition distinct_present (t : term) (mp : gmap string value) : nat :=
  length (filter (λ n, is_Some (mp !! n)) (remove_dups (listify t))).

(** The message of [check_mutually_exclusive] for a list of violating
    terms. *)
Definition mutually_exclusive_msg (violations : list term) : string :=
  "parameters are mutually exclusive: "
  +:+ join ", " ((λ t, join "|" (iter_term t)) <$> violations).

(** A looked-up value that [not module_parameters.get(name)] accepts:
    no value at all, or one of the falsy values. *)
Definition absent_or_falsy (o : option value) : Prop :=
  o = None ∨ o = Some VNone ∨ o = Some (VStr "") ∨ o = Some (VList [])
  ∨ o = Some (VInt 0) ∨ o = Some (VBool false).

(** A check raised (some exception). *)
Definition raises {A : Type} (r : result A) : Prop := ∃ e, r = Raise e.

(** The entry that a driver of [check_required_by] writes into
    [result]. *)
Definition driver_entry (mp : gmap string value) (item : string * term)
  : string * list string :=
  (item.1, filter (λ required, unset mp required = true) (listify item.2)).

(** The drivers that fire: present with a value other than [None]. *)
Definition fired (mp : gmap string value) (requirements : list (string * term))
  : list (string * term) :=
  filter (λ item, unset mp item.1 = false) requirements.

(** The message of [check_required_by] for one driver. *)
Definition required_by_msg (key : string) (missing : list string) : string :=
  "missing parameter(s) required by '" +:+ key +:+ "': " +:+ join ", " missing.

(** Whether a message contains a name (as a substring). *)
Definition mentions (msg name : string) : bool :=
  match String.index 0 name msg with
  | Some _ => true
  | None => false
  end.

(** A rule of [check_required_if] is violated when its report is
    appended to [results]. *)
Definition violated (req : requirement) (mp : gmap string value) : Prop :=
  is_Some (eval_requirement req mp).

(** The requirements of [check_required_by] whose driver fires and has
    a missing dependent. *)
Definition unmet (mp : gmap string value) (requirements : list (string * term))
  : list (string * term) :=
  filter (λ item, unset mp item.1 = false ∧ 0 < length (driver_entry mp item).2)
         requirements.

(** * Facts of NetApp E-Series arrays

    The pure parts of [lib/ansible/modules/storage/netapp/netapp_e_facts.py]:
    [strip_interface_speed] and the labelling done by
    [Facts.get_controllers]. *)

(** ** strip_interface_speed *)

(** The argument and the result: a string, or a list of strings
    ([type(speed) == list]). *)
Inductive speed_value : Type :=
| SpeedStr (s : string)
| SpeedList (l : list string).

(** The character classes [[0-9]] and [[gm]]. *)
Definition is_digit (c : Ascii.ascii) : bool :=
  (48 <=? Ascii.nat_of_ascii c) && (Ascii.nat_of_ascii c <=? 57).

Definition is_unit (c : Ascii.ascii) : bool :=
  Ascii.eqb c "g"%char || Ascii.eqb c "m"%char.

(** [s] without the literal prefix [p], when it starts with it. *)
Fixpoint drop_prefix (p s : string) : option string :=
  match p, s with
  | EmptyString, _ => Some s
  | String a p', String b s' => if Ascii.eqb a b then drop_prefix p' s' else None
  | String _ _, EmptyString => None
  end.

(** The text matched by [[0-9]{k}[gm]] at the start of [s]. *)
Fixpoint digits_unit (k : nat) (s : string) : option string :=
  match s with
  | EmptyString => None
  | String c rest =>
      match k with
      | 0 => if is_unit c then Some (String c EmptyString) else None
      | S k' =>
          if is_digit c
          then match digits_unit k' rest with
               | Some g => Some (String c g)
               | None => None
               end
          else None
      end
  end.

(** [match(r"speed[0-9]{1,3}[gm]", s)]: the matched text ([.group()]),
    or [None].  The quantifier is greedy: three digits are tried first,
    then two, then one. *)
Definition match_speed (s : string) : option string :=
  match drop_prefix "speed" s with
  | None => None
  | Some rest =>
      match digits_unit 3 rest with
      | Some g => Some ("speed" +:+ g)
      | None =>
          match digits_unit 2 rest with
          | Some g => Some ("speed" +:+ g)
          | None =>
              match digits_unit 1 rest with
              | Some g => Some ("speed" +:+ g)
              | None => None
              end
          end
      end
  end.

(** [match(r"auto", s)] as a truth value. *)
Definition match_auto (s : string) : bool := String.prefix "auto" s.

(** [s.replace(old, new)] for a nonempty [old]: every occurrence, left
    to right, without overlap.  [fuel] bounds the characters still to be
    read. *)
Fixpoint replace_from (fuel : nat) (old new s : string) : string :=
  match fuel with
  | 0 => s
  | S fuel' =>
      match drop_prefix old s with
      | Some rest => new +:+ replace_from fuel' old new rest
      | None =>
          match s with
          | EmptyString => EmptyString
          | String c rest => String c (replace_from fuel' old new rest)
          end
      end
  end.

Definition str_replace (old new s : string) : string :=
  replace_from (S (String.length s)) old new s.

(** [s.lower()] on ASCII text (the strings that reach it below are
    ["unknown"] or digits followed by [g] or [m]). *)
Definition lower_char (c : Ascii.ascii) : Ascii.ascii :=
  let n := Ascii.nat_of_ascii c in
  if (65 <=? n) && (n <=? 90) then Ascii.ascii_of_nat (n + 32) else c.

Fixpoint lower (s : string) : string :=
  match s with
  | EmptyString => EmptyString
  | String c rest => String (lower_char c) (lower rest)
  end.

Definition strip_interface_speed (speed : speed_value) : speed_value :=
  match speed with
  | SpeedList speed =>
      let result := match_speed <$> speed in
      (* [for sp in result if sp]: the matches; [if result] tests the
         list of the line above *)
      let result :=
        (λ sp, match result with
               | _ :: _ => str_replace "speed" "" sp
               | [] => "unknown"
               end) <$> omap id result in
      let result := (λ sp, if match_auto sp then "auto" else sp) <$> result in
      SpeedList result
  | SpeedStr speed =>
      let result := match_speed speed in
      let result :=
        match result with
        | Some g => str_replace "speed" "" g
        | None => "unknown"
        end in
      let result := if match_auto (lower result) then "auto" else result in
      SpeedStr result
  end.

(** ** Facts.get_controllers *)

(** What a method of the module ends with: it returns, or
    [module.fail_json] ends the run with a message. *)
Inductive outcome (A : Type) : Type :=
| Returned (a : A)
| FailJson (msg : string).
Arguments Returned {A} a.
Arguments FailJson {A} msg.

(** [a <= b] on strings: lexicographic, character by character. *)
Definition str_le (a b : string) : Prop := Is_true (String.leb a b).

(** [controllers.sort()] *)
Definition sort_strings (l : list string) : list string := merge_sort str_le l.

Section Controllers.

(** [chr(i)] (a Python builtin). *)
Variable chr : nat → string.

(** The loop over the sorted [controllers]: [i] is the code of the next
    label. *)
Fixpoint label_from (i : nat) (controllers : list string)
    (controllers_dict : gmap string string) : gmap string string :=
  match controllers with
  | [] => controllers_dict
  | controller :: rest =>
      let label := chr i in
      label_from (i + 1) rest (<[controller := label]> controllers_dict)
  end.

(** [response] is what [self.request] gave: the list of controller
    references, or the text of the exception it raised. *)
Definition get_controllers (ssid : string) (response : string + list string)
  : outcome (gmap string string) :=
  match response with
  | inl err =>
      FailJson ("Failed to retrieve controller list! Array Id [" +:+ ssid
                +:+ "]. Error [" +:+ err +:+ "].")
  | inr controllers =>
      let controllers := sort_strings controllers in
      (* i = ord('A') *)
      Returned (label_from 65 controllers ∅)
  end.

End Controllers.

(** ** The enabled features gathered by Facts.get_array_facts *)

(** One entry of [array_facts['sa']['premiumFeatures']]. *)
Record premium_feature : Type := PremiumFeature {
  capability : string;
  isEnabled : value
}.

(** The value stored under [netapp_enabled_features], from
    [array_facts['sa']['capabilities']] and
    [array_facts['sa']['premiumFeatures']]. *)
Definition netapp_enabled_features
    (capabilities : list string) (premiumFeatures : list premium_feature)
  : list string :=
  let features := capabilities in
  let features :=
    features
    ++ (capability <$> filter (λ feature, truthy feature.(isEnabled) = true)
                              premiumFeatures) in
  (* ensure unique *)
  let features := elements (list_to_set features : gset string) in
  sort_strings features.

(** ** Vocabulary of the properties of the facts module *)

Fixpoint all_digits (s : string) : bool :=
  match s with
  | EmptyString => true
  | String c rest => is_digit c && all_digits rest
  end.

(** [s] starts with a speed symbol: ["speed"], the one to three digits
    [ds] and the unit [u]. *)
Definition speed_symbol (s ds : string) (u : Ascii.ascii) : Prop :=
  ∃ rest, s = "speed" +:+ ds +:+ String u rest
          ∧ all_digits ds = true
          ∧ 1 ≤ String.length ds ≤ 3
          ∧ is_unit u = true.

(** The result of [strip_interface_speed] on one string. *)
Definition scalar_speed (s : string) : string :=
  match strip_interface_speed (SpeedStr s) with
  | SpeedStr r => r
  | SpeedList _ => s
  end.

(** [a < b] on strings. *)
Definition str_lt (a b : string) : Prop := Is_true (String.ltb a b).

(** * Properties *)

(** ** Facts about [filter] *)

Section FilterFacts.

Context {A : Type} (P : A → Prop) `{!∀ x, Decision (P x)}.
Implicit Types (l : list A).

(** The head of a filtered list satisfies the test and comes from the
    list. *)
Lemma filter_head_inv l x rest : filter P l = x :: rest → P x ∧ x ∈ l.
Proof.
  intros Hf. apply (list_elem_of_filter P l x). rewrite Hf. left.
Qed.

Lemma filter_nil_none l x : filter P l = [] → x ∈ l → ¬ P x.
Proof.
  intros Hf Hx HP.
  assert (Hin : x ∈ filter P l) by (by apply list_elem_of_filter).
  rewrite Hf in Hin. by apply elem_of_nil in Hin.
Qed.

Lemma filter_nonempty l : 0 < length (filter P l) ↔ ∃ x, x ∈ l ∧ P x.
Proof.
  split.
  - destruct (filter P l) as [|x rest] eqn:Hf; simpl; [lia|]. intros _.
    apply filter_head_inv in Hf as [HP Hx]. eauto.
  - intros (x & Hx & HP). destruct (filter P l) as [|y rest] eqn:Hf; simpl; [|lia].
    by destruct (filter_nil_none l x Hf Hx).
Qed.

Lemma filter_keeps_all l : length l ≤ length (filter P l) ↔ ∀ x, x ∈ l → P x.
Proof.
  split.
  - intros Hle x Hx. destruct (decide (P x)) as [|Hn]; [done|].
    pose proof (length_filter_lt P l x Hx Hn). lia.
  - intros Hall. induction l as [|x l IH]; simpl; [lia|].
    rewrite filter_cons_True by (apply Hall; left). simpl.
    apply le_n_S, IH. intros y Hy. apply Hall. by right.
Qed.

(** Filtering again the first element kept changes nothing. *)
Lemma filter_take_1 l : filter P (take 1 (filter P l)) = take 1 (filter P l).
Proof.
  destruct (filter P l) as [|x rest] eqn:Hf; [done|]. simpl.
  apply filter_head_inv in Hf as [HP _].
  rewrite take_0. by rewrite filter_cons_True.
Qed.

End FilterFacts.

(** ** Helper lemmas *)

Section Helpers.

Implicit Types (mp : gmap string value) (t : term) (names : list string).

Lemma has_key_true mp key : has_key mp key = true ↔ is_Some (mp !! key).
Proof. unfold has_key. rewrite bool_decide_eq_true. apply elem_of_dom. Qed.

Lemma has_key_false mp key : has_key mp key = false ↔ mp !! key = None.
Proof.
  unfold has_key. rewrite bool_decide_eq_false, elem_of_dom.
  rewrite eq_None_not_Some. done.
Qed.

(** [count_terms] and [check_required_by] read a term as the names
    [listify] gives. *)
Lemma iterable_names t :
  (if negb (is_iterable t) then listify t else iter_term t) = listify t.
Proof. by destruct t. Qed.

Lemma string_names t :
  (if is_string t then listify t else iter_term t) = listify t.
Proof. by destruct t. Qed.

Lemma count_terms_names t mp :
  count_terms t mp = size ((list_to_set (listify t) : gset string) ∩ dom mp).
Proof. unfold count_terms. by rewrite iterable_names. Qed.

(** The set that [count_terms] measures, as a duplicate-free list. *)
Lemma present_names_set mp names :
  (list_to_set names : gset string) ∩ dom mp
  = list_to_set (filter (λ n, is_Some (mp !! n)) (remove_dups names)).
Proof.
  apply set_eq. intros x.
  rewrite elem_of_intersection, !elem_of_list_to_set, list_elem_of_filter.
  rewrite elem_of_remove_dups, elem_of_dom. tauto.
Qed.

Lemma count_terms_distinct t mp :
  count_terms t mp
  = length (filter (λ n, is_Some (mp !! n)) (remove_dups (listify t))).
Proof.
  rewrite count_terms_names, present_names_set.
  apply size_list_to_set, NoDup_filter, NoDup_remove_dups.
Qed.

Lemma count_terms_same_names names1 names2 mp :
  (∀ x, x ∈ names1 ↔ x ∈ names2) →
  count_terms (TSeq names1) mp = count_terms (TSeq names2) mp.
Proof.
  intros Hsame. rewrite !count_terms_names; simpl.
  replace (list_to_set names1 : gset string) with (list_to_set names2 : gset string);
    [done|].
  apply set_eq. intros x. rewrite !elem_of_list_to_set. symmetry. apply Hsame.
Qed.

Lemma count_terms_zero t mp :
  count_terms t mp = 0 ↔ ∀ n, n ∈ listify t → mp !! n = None.
Proof.
  rewrite count_terms_names, size_empty_iff. split.
  - intros Hempty n Hn. apply not_elem_of_dom. intros Hd.
    apply (not_elem_of_empty (C:=gset string) n), Hempty.
    apply elem_of_intersection. split; [|done].
    by apply elem_of_list_to_set.
  - intros Hnone n. split; [|by intros ?%not_elem_of_empty].
    intros [Hn Hd]%elem_of_intersection.
    apply elem_of_list_to_set in Hn. apply elem_of_dom in Hd.
    rewrite (Hnone n Hn) in Hd. by destruct Hd.
Qed.

End Helpers.

(** ** count_terms *)

(** C7. [count_terms] returns the number of distinct names of the term
    that are keys of the mapping.  Two terms with the same names, in any
    order and with any repetitions, therefore have the same count; a bare
    name counts as the one-element sequence holding it; the count of the
    empty term, and every count against the empty mapping, is 0. *)
Theorem count_terms_distinct_present
    (names1 names2 : list string) (mp : gmap string value)
    (Hsame : ∀ x, x ∈ names1 ↔ x ∈ names2) :
  count_terms (TSeq names1) mp = count_terms (TSeq names2) mp
  ∧ (∀ t, count_terms t mp
          = length (filter (λ n, is_Some (mp !! n)) (remove_dups (listify t))))
  ∧ (∀ name, count_terms (TName name) mp = count_terms (TSeq [name]) mp)
  ∧ (∀ name, count_terms (TName name) mp = if has_key mp name then 1 else 0)
  ∧ count_terms (TSeq []) mp = 0
  ∧ (∀ t, count_terms t ∅ = 0).
Proof.
  split; [by apply count_terms_same_names|].
  split; [intros t; apply count_terms_distinct|].
  split; [intros name; reflexivity|].
  split.
  - intros name. rewrite count_terms_distinct. simpl.
    destruct (has_key mp name) eqn:Hk.
    + apply has_key_true in Hk. rewrite filter_cons_True; done.
    + apply has_key_false in Hk. rewrite filter_cons_False; [done|].
      rewrite Hk. by intros [? ?].
  - split.
    + apply count_terms_zero. intros n Hn. by apply elem_of_nil in Hn.
    + intros t. apply count_terms_zero. intros n _. apply lookup_empty.
Qed.

(** The names [a, b, a] and [b, a] against [{a: 1, b: 2}]. *)
Lemma count_terms_distinct_present_witness :
  (∀ x : string, x ∈ ["a"; "b"; "a"] ↔ x ∈ ["b"; "a"])
  ∧ count_terms (TSeq ["a"; "b"; "a"]) {["a" := VInt 1; "b" := VInt 2]}
    = count_terms (TSeq ["b"; "a"]) {["a" := VInt 1; "b" := VInt 2]}.
Proof.
  assert (Hsame : ∀ x : string, x ∈ ["a"; "b"; "a"] ↔ x ∈ ["b"; "a"]).
  { intros x. rewrite !elem_of_cons, elem_of_nil. tauto. }
  split; [exact Hsame|].
  exact (proj1 (count_terms_distinct_present
                  ["a"; "b"; "a"] ["b"; "a"]
                  {["a" := VInt 1; "b" := VInt 2]} Hsame)).
Defined.

(** ** Empty and absent constraints *)

(** C9. Every check returns its empty result (the empty list, or the
    empty dictionary for [check_required_by]) when its constraint
    argument is [None] or empty, whatever the parameter mapping; it does
    not raise. *)
Theorem empty_constraints_succeed (py_str : value → string) (mp : gmap string value) :
  (check_mutually_exclusive None mp = Return []
   ∧ check_mutually_exclusive (Some []) mp = Return [])
  ∧ (check_required_one_of None mp = Return []
     ∧ check_required_one_of (Some []) mp = Return [])
  ∧ (check_required_together None mp = Return []
     ∧ check_required_together (Some []) mp = Return [])
  ∧ (check_required_by None mp = Return []
     ∧ check_required_by (Some []) mp = Return [])
  ∧ (check_required_arguments None mp = Return []
     ∧ check_required_arguments (Some []) mp = Return [])
  ∧ (check_required_if py_str None mp = Return []
     ∧ check_required_if py_str (Some []) mp = Return [])
  ∧ (check_missing_parameters mp None = Return []
     ∧ check_missing_parameters mp (Some []) = Return []).
Proof. repeat split; reflexivity. Qed.

(** ** check_mutually_exclusive *)

Section MutuallyExclusive.

Implicit Types (mp : gmap string value) (terms : list term).

Lemma mutually_exclusive_results_eq terms mp :
  mutually_exclusive_results terms mp
  = filter (λ t, 1 < distinct_present t mp) terms.
Proof.
  apply list_filter_iff. intros t. unfold distinct_present.
  by rewrite count_terms_distinct.
Qed.

(** A bare name never violates: its count is at most 1. *)
Lemma mutually_exclusive_results_seq terms mp t :
  t ∈ mutually_exclusive_results terms mp → ∃ names, t = TSeq names.
Proof.
  intros [Hcount _]%list_elem_of_filter. destruct t as [name|names]; [|eauto].
  rewrite count_terms_distinct in Hcount. simpl in Hcount.
  destruct (decide (is_Some (mp !! name))).
  - rewrite filter_cons_True in Hcount by done. simpl in Hcount. lia.
  - rewrite filter_cons_False in Hcount by done. simpl in Hcount. lia.
Qed.

End MutuallyExclusive.

(** C4. A term of [terms] is a violation exactly when more than one of
    its distinct names is a key of the mapping.  With no violation the
    check returns the empty list; otherwise it raises one [TypeError]
    whose message is ["parameters are mutually exclusive: "] followed by
    every violating term, in order, the names of a term joined by ["|"]
    and the terms joined by [", "]. *)
Theorem check_mutually_exclusive_spec (terms : list term) (mp : gmap string value) :
  let violations := filter (λ t, 1 < distinct_present t mp) terms in
  (∀ t, t ∈ mutually_exclusive_results terms mp
        ↔ t ∈ terms ∧ 1 < distinct_present t mp)
  ∧ (∀ t, t ∈ violations → ∃ names, t = TSeq names ∧ iter_term t = names)
  ∧ check_mutually_exclusive (Some terms) mp
    = match violations with
      | [] => Return []
      | _ :: _ => Raise (TypeError (mutually_exclusive_msg violations))
      end.
Proof.
  intros violations. split; [|split].
  - intros t. rewrite mutually_exclusive_results_eq, list_elem_of_filter. tauto.
  - intros t Ht. subst violations. rewrite <- mutually_exclusive_results_eq in Ht.
    apply mutually_exclusive_results_seq in Ht as [names ->]. eauto.
  - unfold check_mutually_exclusive. rewrite mutually_exclusive_results_eq.
    fold violations. by destruct violations.
Qed.

(** The two mappings of the specification's example: [[a, b]] against
    [{a: 1, b: 2}] is the one violation, [[a, c]] is none. *)
Example check_mutually_exclusive_ab :
  check_mutually_exclusive (Some [TSeq ["a"; "b"]]) {["a" := VInt 1; "b" := VInt 2]}
  = Raise (TypeError "parameters are mutually exclusive: a|b")
  ∧ check_mutually_exclusive (Some [TSeq ["a"; "c"]]) {["a" := VInt 1; "b" := VInt 2]}
    = Return [].
Proof. split; vm_compute; reflexivity. Qed.

(** ** check_required_together *)

Section RequiredTogether.

Implicit Types (mp : gmap string value) (g : list term).

Lemma together_violation g mp :
  (let counts := together_counts g mp in
   let non_zero := filter (λ c, 0 < c) counts in
   0 < length non_zero ∧ 0 ∈ counts)
  ↔ (∃ f, f ∈ g ∧ 0 < count_terms f mp) ∧ (∃ f, f ∈ g ∧ count_terms f mp = 0).
Proof.
  simpl. unfold together_counts. rewrite filter_nonempty, list_elem_of_fmap.
  split.
  - intros [(c & (f & -> & Hf)%list_elem_of_fmap & Hc) (f0 & H0 & Hf0)].
    split; [by exists f | by exists f0].
  - intros [(f & Hf & Hc) (f0 & Hf0 & H0)]. split.
    + exists (count_terms f mp). split; [|done].
      apply list_elem_of_fmap. eauto.
    + eauto.
Qed.

End RequiredTogether.

(** C5. A group is a violation of [check_required_together] exactly
    when one of its terms has a positive presence count and one of its
    terms has presence count 0; the check returns the empty list when no
    group is a violation and raises otherwise.  [[a, b]] against
    [{a: 1}] raises; against [{a: 1, b: 2}] and against [{}] it does
    not. *)
Theorem check_required_together_spec
    (groups : list (list term)) (mp : gmap string value) :
  (∀ g, g ∈ required_together_results groups mp
        ↔ g ∈ groups
          ∧ (∃ f, f ∈ g ∧ 0 < count_terms f mp)
          ∧ (∃ f, f ∈ g ∧ count_terms f mp = 0))
  ∧ (check_required_together (Some groups) mp = Return []
     ↔ required_together_results groups mp = [])
  ∧ (raises (check_required_together (Some groups) mp)
     ↔ required_together_results groups mp ≠ [])
  ∧ check_required_together (Some [[TName "a"; TName "b"]]) {["a" := VInt 1]}
    = Raise (TypeError "parameters are required together: a, b")
  ∧ check_required_together
      (Some [[TName "a"; TName "b"]]) {["a" := VInt 1; "b" := VInt 2]}
    = Return []
  ∧ check_required_together (Some [[TName "a"; TName "b"]]) ∅ = Return [].
Proof.
  split; [|split; [|split]].
  - intros g. unfold required_together_results.
    rewrite list_elem_of_filter, together_violation. tauto.
  - unfold check_required_together.
    destruct (required_together_results groups mp) as [|g rest]; [done|].
    destruct (join_fields ", " g); simpl; split; intros H; discriminate H.
  - unfold check_required_together, raises.
    destruct (required_together_results groups mp) as [|g rest].
    + split; [intros [e He]; discriminate | done].
    + split; [discriminate|]. intros _. destruct (join_fields ", " g); eauto.
  - repeat split; vm_compute; reflexivity.
Qed.

(** ** check_required_arguments *)

(** The [required] flag of a descriptor, read off the descriptor
    itself: the entry under the key ["required"] exists and is truthy. *)
Lemma spec_required_truthy (v : gmap string value) :
  truthy (spec_required v) = true
  ↔ ∃ flag, v !! "required" = Some flag ∧ truthy flag = true.
Proof.
  unfold spec_required. destruct (v !! "required") as [flag|]; simpl.
  - split; [eauto|]. by intros (flag' & [= <-] & Hflag).
  - split; [discriminate|]. by intros (flag' & ? & _).
Qed.

(** C6. A name is reported missing by [check_required_arguments]
    exactly when it is an entry of the argument specification whose
    descriptor has an entry ["required"] with a truthy value, and it is
    not a key of the mapping: a descriptor without that entry (the flag
    defaults to [False]) or with a falsy one never makes its name
    missing, and a key that is present is never missing, whatever its
    value ([None] included).  With no missing name the check returns the
    empty list; otherwise it raises one [TypeError] whose message is
    ["missing required arguments: "] followed by all missing names joined
    by [", "]. *)
Theorem check_required_arguments_spec
    (argument_spec : list (string * gmap string value)) (mp : gmap string value) :
  let missing := required_arguments_missing argument_spec mp in
  (∀ k, k ∈ missing
        ↔ ∃ v flag, (k, v) ∈ argument_spec
                    ∧ v !! "required" = Some flag ∧ truthy flag = true
                    ∧ mp !! k = None)
  ∧ (∀ k v, mp !! k = Some v → k ∉ missing)
  ∧ (∀ k, (∀ v, (k, v) ∈ argument_spec →
                v !! "required" = None
                ∨ ∃ flag, v !! "required" = Some flag ∧ truthy flag = false) →
          k ∉ missing)
  ∧ check_required_arguments (Some argument_spec) mp
    = match missing with
      | [] => Return []
      | _ :: _ =>
          Raise (TypeError ("missing required arguments: " +:+ join ", " missing))
      end
  ∧ check_required_arguments
      (Some [("a", {["required" := VBool true]});
             ("b", {["required" := VBool true]});
             ("c", {["required" := VBool true]});
             ("d", {["required" := VBool true]})])
      {["d" := VNone]}
    = Raise (TypeError "missing required arguments: a, b, c")
  ∧ check_required_arguments
      (Some [("a", {["required" := VBool true]});
             ("b", {["required" := VBool false]});
             ("c", {["type" := VStr "str"]});
             ("d", ∅);
             ("e", {["required" := VNone]});
             ("f", {["required" := VInt 1]});
             ("g", {["required" := VStr ""]})])
      ∅
    = Raise (TypeError "missing required arguments: a, f")
  ∧ check_required_arguments
      (Some [("b", {["required" := VBool false]});
             ("c", {["type" := VStr "str"]});
             ("d", ∅)])
      ∅
    = Return [].
Proof.
  intros missing.
  assert (Hin : ∀ k, k ∈ missing
                     ↔ ∃ v flag, (k, v) ∈ argument_spec
                                 ∧ v !! "required" = Some flag ∧ truthy flag = true
                                 ∧ mp !! k = None).
  { intros k. subst missing. unfold required_arguments_missing.
    rewrite list_elem_of_fmap. split.
    - intros ([k' v] & -> & [[Hreq Hkey] Hitem]%list_elem_of_filter).
      simpl in *. apply has_key_false in Hkey.
      apply spec_required_truthy in Hreq as (flag & Hflag & Htrue).
      by exists v, flag.
    - intros (v & flag & Hitem & Hflag & Htrue & Hkey). exists (k, v).
      split; [done|]. apply list_elem_of_filter. simpl. split; [|done].
      split; [|by apply has_key_false]. apply spec_required_truthy. eauto. }
  split; [exact Hin|]. split; [|split; [|split; [|split; [|split]]]].
  - intros k v Hk (v' & flag & _ & _ & _ & Hnone)%Hin. congruence.
  - intros k Hflags (v & flag & Hitem & Hflag & Htrue & _)%Hin.
    destruct (Hflags v Hitem) as [Hnone|(flag' & Hflag' & Hfalse)]; congruence.
  - unfold check_required_arguments. fold missing. by destruct missing.
  - vm_compute. reflexivity.
  - vm_compute. reflexivity.
  - vm_compute. reflexivity.
Qed.

(** The specification's example: [a] required, [b] not, mapping
    [{b: 1}]. *)
Example check_required_arguments_a_b :
  check_required_arguments
    (Some [("a", {["required" := VBool true]});
           ("b", {["required" := VBool false]})])
    {["b" := VInt 1]}
  = Raise (TypeError "missing required arguments: a").
Proof. vm_compute. reflexivity. Qed.

(** ** check_missing_parameters *)

Lemma truthy_false_iff (o : option value) :
  truthy (default VNone o) = false ↔ absent_or_falsy o.
Proof.
  unfold absent_or_falsy. split.
  - destruct o as [v|]; [|auto]. destruct v as [|b|z|s|items]; simpl; intros H.
    + auto.
    + destruct b; [discriminate | auto 10].
    + apply negb_false_iff, Z.eqb_eq in H. subst. auto 10.
    + apply negb_false_iff, String.eqb_eq in H. subst. auto 10.
    + destruct items; [auto 10 | discriminate].
  - intros [->|[->|[->|[->|[->| ->]]]]]; reflexivity.
Qed.

(** C8. A name of the required-parameters list is reported missing by
    [check_missing_parameters] exactly when the mapping has no value for
    it or has a falsy one ([None], the empty string, the empty sequence,
    zero, [False]): a present key with a falsy value is missing.  With no
    missing name the check returns the empty list; otherwise it raises
    with the message listing the missing names. *)
Theorem check_missing_parameters_spec
    (mp : gmap string value) (required_parameters : list string) :
  let missing := missing_parameters mp required_parameters in
  (∀ p, p ∈ missing ↔ p ∈ required_parameters ∧ absent_or_falsy (mp !! p))
  ∧ check_missing_parameters mp (Some required_parameters)
    = match missing with
      | [] => Return []
      | _ :: _ =>
          Raise (TypeError ("missing required arguments: " +:+ join ", " missing))
      end
  ∧ check_missing_parameters
      {["a" := VInt 0; "b" := VStr "x"; "c" := VBool false]} (Some ["a"; "b"; "c"; "d"])
    = Raise (TypeError "missing required arguments: a, c, d").
Proof.
  intros missing. split; [|split].
  - intros p. subst missing. unfold missing_parameters, dict_get.
    rewrite list_elem_of_filter, truthy_false_iff. tauto.
  - unfold check_missing_parameters. fold missing. by destruct missing.
  - vm_compute. reflexivity.
Qed.

(** ** check_required_by *)

Section RequiredBy.

Implicit Types (mp : gmap string value) (requirements : list (string * term)).
Implicit Types (result : list (string * list string)).

Lemma unset_true mp name :
  unset mp name = true ↔ mp !! name = None ∨ mp !! name = Some VNone.
Proof.
  unfold unset. destruct (mp !! name) as [v|]; [|tauto].
  destruct v; simpl; split; try tauto; try discriminate;
    intros [H|H]; congruence.
Qed.

Lemma unset_false mp name :
  unset mp name = false ↔ ∃ v, mp !! name = Some v ∧ v ≠ VNone.
Proof.
  unfold unset. destruct (mp !! name) as [v|].
  - destruct v; simpl; split; try discriminate; eauto;
      intros (v & [= <-] & Hv); congruence.
  - split; [discriminate|]. by intros (v & ? & _).
Qed.

Lemma dict_set_fresh {V} (key : string) (v : V) (d : list (string * V)) :
  key ∉ d.*1 → dict_set key v d = d ++ [(key, v)].
Proof.
  induction d as [|[k w] d IH]; simpl; [done|].
  intros Hfresh. apply not_elem_of_cons in Hfresh as [Hne Hfresh].
  destruct (String.eqb_spec key k); [done|]. by rewrite IH.
Qed.

Lemma required_by_fold mp requirements result :
  NoDup requirements.*1 →
  (∀ key, key ∈ requirements.*1 → key ∉ result.*1) →
  foldl (required_by_step mp) result requirements
  = result ++ (driver_entry mp <$> fired mp requirements).
Proof.
  revert result. induction requirements as [|[key value] requirements IH];
    intros result Hnodup Hfresh; simpl.
  { by rewrite app_nil_r. }
  apply NoDup_cons in Hnodup as [Hkey Hnodup]. unfold fired.
  destruct (unset mp key) eqn:Hunset.
  - rewrite filter_cons_False by (simpl; congruence).
    apply IH; [done|]. intros k Hk. apply Hfresh. by right.
  - rewrite filter_cons_True by done. rewrite string_names, dict_set_fresh.
    + rewrite IH; [by rewrite <- app_assoc | done |].
      intros k Hk. rewrite fmap_app. simpl.
      intros [Hin|Hin%list_elem_of_singleton]%elem_of_app.
      * revert Hin. apply Hfresh. by right.
      * by subst k.
    + apply Hfresh. by left.
Qed.

Lemma required_by_result_wf mp requirements :
  dict_wf requirements →
  required_by_result requirements mp = driver_entry mp <$> fired mp requirements.
Proof.
  intros Hwf. unfold required_by_result.
  rewrite required_by_fold; [done | done |]. intros key _. apply not_elem_of_nil.
Qed.

Lemma required_by_entry mp requirements key missing :
  dict_wf requirements →
  (key, missing) ∈ required_by_result requirements mp
  ↔ ∃ deps, (key, deps) ∈ requirements ∧ unset mp key = false
            ∧ missing = filter (λ d, unset mp d = true) (listify deps).
Proof.
  intros Hwf. rewrite required_by_result_wf by done.
  rewrite list_elem_of_fmap. unfold fired, driver_entry. split.
  - intros ([k deps] & [= -> ->] & [Hfired Hitem]%list_elem_of_filter). eauto.
  - intros (deps & Hitem & Hfired & ->). exists (key, deps). split; [done|].
    by apply list_elem_of_filter.
Qed.

(** The second loop: either no entry of [result] has a missing
    dependent and [result] is returned, or the check raises for an
    entry that has one. *)
Lemma check_required_by_cases mp requirements :
  let result := required_by_result requirements mp in
  (check_required_by (Some requirements) mp = Return result
   ∧ ∀ key missing, (key, missing) ∈ result → missing = [])
  ∨ (∃ key missing, (key, missing) ∈ result ∧ missing ≠ []
       ∧ check_required_by (Some requirements) mp
         = Raise (TypeError (required_by_msg key missing))).
Proof.
  intros result. unfold check_required_by. fold result.
  destruct (filter (λ item : string * list string, 0 < length item.2) result)
    as [|[key missing] rest] eqn:Hf.
  - left. split; [done|]. intros key missing Hin.
    destruct missing as [|d missing]; [done|].
    destruct (filter_nil_none _ _ _ Hf Hin). simpl. lia.
  - right. exists key, missing.
    apply filter_head_inv in Hf as [Hlen Hin]. simpl in Hlen.
    split; [done|]. split; [|done]. intros ->. simpl in Hlen. lia.
Qed.

Lemma filter_unset_nonempty mp (deps : list string) :
  filter (λ d, unset mp d = true) deps ≠ []
  ↔ ∃ d, d ∈ deps ∧ (mp !! d = None ∨ mp !! d = Some VNone).
Proof.
  split.
  - destruct (filter _ deps) as [|d rest] eqn:Hf; [done|]. intros _.
    apply filter_head_inv in Hf as [Hd%unset_true Hin]. eauto.
  - intros (d & Hin & Hd%unset_true) Hnil.
    by destruct (filter_nil_none _ _ _ Hnil Hin).
Qed.

End RequiredBy.

(** C3. For a requirements dictionary and a parameter mapping: a
    driver that is not a key of the mapping, or whose value is [None],
    gets no entry in the result (no rule fires); a driver that fires gets
    as its entry the dependents that are not keys of the mapping or have
    value [None]; and when some entry is nonempty the check raises a
    [TypeError] whose message is ["missing parameter(s) required by
    '<driver>': "] followed by that driver's missing dependents joined by
    [", "], for a driver with a nonempty entry. *)
Theorem check_required_by_spec
    (requirements : list (string * term)) (mp : gmap string value)
    (Hwf : dict_wf requirements) :
  let result := required_by_result requirements mp in
  (∀ key, mp !! key = None ∨ mp !! key = Some VNone → key ∉ result.*1)
  ∧ (∀ key deps,
       (key, deps) ∈ requirements →
       (∃ v, mp !! key = Some v ∧ v ≠ VNone) →
       ∃ missing,
         (key, missing) ∈ result
         ∧ ∀ d, d ∈ missing
                ↔ d ∈ listify deps ∧ (mp !! d = None ∨ mp !! d = Some VNone))
  ∧ ((∃ key missing, (key, missing) ∈ result ∧ missing ≠ []) →
     ∃ key missing,
       (key, missing) ∈ result ∧ missing ≠ []
       ∧ check_required_by (Some requirements) mp
         = Raise (TypeError
                    ("missing parameter(s) required by '" +:+ key +:+ "': "
                     +:+ join ", " missing))).
Proof.
  intros result. split; [|split].
  - intros key Hunset%unset_true ([k missing] & -> & Hin)%list_elem_of_fmap.
    apply required_by_entry in Hin as (deps & _ & Hfired & _); [|done].
    simpl in Hunset. congruence.
  - intros key deps Hitem Hfired%unset_false.
    exists (filter (λ d, unset mp d = true) (listify deps)). split.
    + apply required_by_entry; eauto.
    + intros d. rewrite list_elem_of_filter, unset_true. tauto.
  - intros (key & missing & Hin & Hne).
    destruct (check_required_by_cases mp requirements) as [[_ Hall]|Hraise].
    + by apply Hall in Hin.
    + exact Hraise.
Qed.

(** Requirements [{a: [b, c, d]}] against [{a: 1, b: 2}]. *)
Lemma check_required_by_spec_witness :
  dict_wf [("a", TSeq ["b"; "c"; "d"])]
  ∧ ∃ key missing,
      (key, missing)
        ∈ required_by_result [("a", TSeq ["b"; "c"; "d"])]
                             {["a" := VInt 1; "b" := VInt 2]}
      ∧ missing ≠ []
      ∧ check_required_by (Some [("a", TSeq ["b"; "c"; "d"])])
                          {["a" := VInt 1; "b" := VInt 2]}
        = Raise (TypeError
                   ("missing parameter(s) required by '" +:+ key +:+ "': "
                    +:+ join ", " missing)).
Proof.
  assert (Hwf : dict_wf [("a", TSeq ["b"; "c"; "d"])]).
  { unfold dict_wf. simpl. apply NoDup_singleton. }
  split; [exact Hwf|].
  apply (check_required_by_spec
           [("a", TSeq ["b"; "c"; "d"])] {["a" := VInt 1; "b" := VInt 2]} Hwf).
  exists "a", ["c"; "d"]. split; [|discriminate].
  vm_compute. left.
Defined.

(** The rendered message of that example, and the example of the
    specification: [{a: [b, c]}] against [{a: 1, b: 2}] and against
    [{}]. *)
Example check_required_by_messages :
  check_required_by (Some [("a", TSeq ["b"; "c"; "d"])])
                    {["a" := VInt 1; "b" := VInt 2]}
  = Raise (TypeError "missing parameter(s) required by 'a': c, d")
  ∧ check_required_by (Some [("a", TSeq ["b"; "c"])]) {["a" := VInt 1; "b" := VInt 2]}
    = Raise (TypeError "missing parameter(s) required by 'a': c")
  ∧ check_required_by (Some [("a", TSeq ["b"; "c"])]) ∅ = Return [].
Proof. repeat split; vm_compute; reflexivity. Qed.

(** C10. [check_required_by] raises exactly when some driver that is
    a key of the mapping with a value other than [None] has a dependent
    that is not a key of the mapping or has value [None].  When it
    returns, the dictionary holds one entry, the empty list, for every
    such driver, in the order of the requirements: it is empty only when
    no driver fired. *)
Theorem check_required_by_raises_iff
    (requirements : list (string * term)) (mp : gmap string value)
    (Hwf : dict_wf requirements) :
  (raises (check_required_by (Some requirements) mp)
   ↔ ∃ key deps d,
       (key, deps) ∈ requirements
       ∧ (∃ v, mp !! key = Some v ∧ v ≠ VNone)
       ∧ d ∈ listify deps ∧ (mp !! d = None ∨ mp !! d = Some VNone))
  ∧ (∀ result,
       check_required_by (Some requirements) mp = Return result →
       result = (λ item, (item.1, [])) <$> fired mp requirements
       ∧ (∀ key, (key, []) ∈ result
                 ↔ key ∈ requirements.*1 ∧ ∃ v, mp !! key = Some v ∧ v ≠ VNone)
       ∧ (result = [] ↔ ∀ key, key ∈ requirements.*1 → unset mp key = true)).
Proof.
  pose proof (check_required_by_cases mp requirements) as Hcases. cbv zeta in Hcases.
  split.
  - split.
    + intros [e He]. destruct Hcases as [[Hret _]|(key & missing & Hin & Hne & _)].
      { rewrite Hret in He. discriminate. }
      apply required_by_entry in Hin as (deps & Hitem & Hfired & ->); [|done].
      apply filter_unset_nonempty in Hne as (d & Hd & Hunset).
      apply unset_false in Hfired. exists key, deps, d. tauto.
    + intros (key & deps & d & Hitem & Hfired%unset_false & Hd & Hunset).
      destruct Hcases as [[_ Hall]|(k & missing & _ & _ & Hraise)];
        [|by eexists].
      exfalso.
      assert (Hne : filter (λ d, unset mp d = true) (listify deps) ≠ [])
        by (apply filter_unset_nonempty; eauto).
      apply Hne, (Hall key). apply required_by_entry; eauto.
  - intros result Hret.
    destruct Hcases as [[Hret' Hall]|(k & missing & _ & _ & Hraise)];
      [|congruence].
    rewrite Hret' in Hret. injection Hret as <-.
    assert (Hres : required_by_result requirements mp
                   = (λ item, (item.1, [])) <$> fired mp requirements).
    { rewrite required_by_result_wf by done. apply list_fmap_ext.
      intros i item Hitem. unfold driver_entry. f_equal.
      apply (Hall item.1). rewrite required_by_result_wf by done.
      apply list_elem_of_fmap. exists item. split; [done|].
      by eapply list_elem_of_lookup_2. }
    split; [exact Hres|]. split.
    + intros key. rewrite Hres, list_elem_of_fmap. unfold fired. split.
      * intros ([k deps] & [= ->] & [Hfired Hitem]%list_elem_of_filter).
        simpl in Hfired. apply unset_false in Hfired. split; [|done].
        apply list_elem_of_fmap. by exists (k, deps).
      * intros [([k deps] & -> & Hitem)%list_elem_of_fmap Hfired%unset_false].
        exists (k, deps). split; [done|]. by apply list_elem_of_filter.
    + rewrite Hres. unfold fired. split.
      * intros Hnil%fmap_nil_inv key ([k deps] & -> & Hitem)%list_elem_of_fmap.
        simpl. destruct (unset mp k) eqn:Hunset; [done|].
        by destruct (filter_nil_none _ _ _ Hnil Hitem).
      * intros Hall'. destruct (filter _ requirements) as [|[k deps] rest] eqn:Hf;
          [done|]. exfalso.
        apply filter_head_inv in Hf as [Hfired Hitem]. simpl in Hfired.
        rewrite Hall' in Hfired; [discriminate|].
        apply list_elem_of_fmap. by exists (k, deps).
Qed.

(** Requirements [{a: [b], z: [y]}] against [{a: 1, b: 2}]: the check
    returns, and its result has the entry [a: []]. *)
Lemma check_required_by_raises_iff_witness :
  dict_wf [("a", TSeq ["b"]); ("z", TName "y")]
  ∧ check_required_by (Some [("a", TSeq ["b"]); ("z", TName "y")])
                      {["a" := VInt 1; "b" := VInt 2]}
    = Return [("a", [])]
  ∧ [("a", [])]
    = (λ item : string * term, (item.1, @nil string))
        <$> fired {["a" := VInt 1; "b" := VInt 2]}
                  [("a", TSeq ["b"]); ("z", TName "y")].
Proof.
  assert (Hwf : dict_wf [("a", TSeq ["b"]); ("z", TName "y")]).
  { unfold dict_wf. simpl. apply NoDup_cons. split; [|apply NoDup_singleton].
    intros Hin%list_elem_of_singleton. discriminate. }
  assert (Hret : check_required_by (Some [("a", TSeq ["b"]); ("z", TName "y")])
                                   {["a" := VInt 1; "b" := VInt 2]}
                 = Return [("a", [])])
    by (vm_compute; reflexivity).
  split; [exact Hwf|]. split; [exact Hret|].
  exact (proj1 (proj2 (check_required_by_raises_iff
                         [("a", TSeq ["b"]); ("z", TName "y")]
                         {["a" := VInt 1; "b" := VInt 2]} Hwf)
                      [("a", [])] Hret)).
Defined.

(** ** check_required_if *)

Section RequiredIfFacts.

Implicit Types (mp : gmap string value) (req : requirement).

Lemma req_applies_true req mp :
  req_applies req mp = true
  ↔ ∃ v, mp !! req_key req = Some v ∧ py_eq v (req_val req) = true.
Proof.
  unfold req_applies. destruct (mp !! req_key req) as [v|].
  - split; [eauto|]. by intros (v' & [= <-] & Heq).
  - split; [discriminate|]. by intros (v' & ? & _).
Qed.

(** What [eval_requirement] returns when it returns a report. *)
Lemma eval_requirement_report req mp report :
  eval_requirement req mp = Some report →
  req_applies req mp = true
  ∧ report
    = MissingReport
        (filter (λ check, count_terms check mp = 0) (req_requirements req))
        (if truthy (req_is_one_of req) then "any" else "all")
        (req_key req) (req_val req) (req_requirements req).
Proof.
  unfold eval_requirement. destruct (req_applies req mp); simpl.
  - destruct (_ && _); [|discriminate]. intros [= <-]. done.
  - discriminate.
Qed.

Lemma violated_iff req mp :
  violated req mp
  ↔ req_applies req mp = true
    ∧ if truthy (req_is_one_of req)
      then req_requirements req ≠ []
           ∧ ∀ t, t ∈ req_requirements req → count_terms t mp = 0
      else ∃ t, t ∈ req_requirements req ∧ count_terms t mp = 0.
Proof.
  unfold violated, eval_requirement.
  destruct (req_applies req mp); simpl; [|split; [by intros [? ?] | by intros [? _]]].
  set (rs := req_requirements req).
  set (zero := filter (λ check, count_terms check mp = 0) rs).
  assert (Hnz : negb (length zero =? 0) = true
                ↔ ∃ t, t ∈ rs ∧ count_terms t mp = 0).
  { rewrite negb_true_iff, Nat.eqb_neq. subst zero.
    rewrite <- (filter_nonempty (λ check, count_terms check mp = 0) rs). lia. }
  destruct (truthy (req_is_one_of req)).
  - destruct (negb (length zero =? 0) && (length rs <=? length zero)) eqn:Hc.
    + apply andb_true_iff in Hc as [Hc1 Hc2]. apply Nat.leb_le in Hc2.
      split; [intros _|by eauto]. split; [done|].
      apply Hnz in Hc1 as (t & Ht & _). split.
      * intros Hnil. rewrite Hnil in Ht. by apply elem_of_nil in Ht.
      * exact (proj1 (filter_keeps_all (λ check, count_terms check mp = 0) rs) Hc2).
    + split; [by intros [? ?]|]. intros (_ & Hne & Hall). exfalso.
      apply andb_false_iff in Hc as [Hc|Hc].
      * apply not_true_iff_false in Hc. apply Hc, Hnz.
        destruct rs as [|t rs'] eqn:Hrs; [done|]. exists t. split; [left|].
        apply Hall. left.
      * apply Nat.leb_gt in Hc.
        apply (filter_keeps_all (λ check, count_terms check mp = 0)) in Hall.
        subst zero. lia.
  - rewrite andb_true_r.
    destruct (negb (length zero =? 0)) eqn:Hc.
    + split; [intros _|by eauto]. split; [done|]. by apply Hnz.
    + split; [by intros [? ?]|]. intros [_ Hex]. apply Hnz in Hex. discriminate.
Qed.

Lemma required_if_results_nil (requirements : list requirement) mp :
  required_if_results requirements mp = []
  ↔ ∀ r, r ∈ requirements → eval_requirement r mp = None.
Proof.
  unfold required_if_results. split.
  - intros Hnil r Hr. destruct (eval_requirement r mp) as [report|] eqn:He; [|done].
    assert (Hin : report ∈ omap (λ req, eval_requirement req mp) requirements)
      by (apply list_elem_of_omap; eauto).
    rewrite Hnil in Hin. by apply elem_of_nil in Hin.
  - intros Hall. destruct (omap _ requirements) as [|report rest] eqn:Ho; [done|].
    assert (Hin : report ∈ omap (λ req, eval_requirement req mp) requirements)
      by (rewrite Ho; left).
    apply list_elem_of_omap in Hin as (r & Hr & He).
    rewrite (Hall r Hr) in He. discriminate.
Qed.

Lemma check_required_if_return py_str (requirements : list requirement) mp :
  check_required_if py_str (Some requirements) mp = Return []
  ↔ required_if_results requirements mp = [].
Proof.
  unfold check_required_if.
  destruct (required_if_results requirements mp) as [|report rest]; [done|].
  destruct (join_fields ", " (missing report)); simpl; split; intros H;
    discriminate H.
Qed.

Lemma check_required_if_raises py_str (requirements : list requirement) mp :
  raises (check_required_if py_str (Some requirements) mp)
  ↔ required_if_results requirements mp ≠ [].
Proof.
  unfold check_required_if, raises.
  destruct (required_if_results requirements mp) as [|report rest].
  - split; [intros [e He]; discriminate | done].
  - split; [discriminate|]. intros _.
    destruct (join_fields ", " (missing report)); eauto.
Qed.

End RequiredIfFacts.

(** C1. A rule of [check_required_if] is violated only when its key
    is a key of the mapping whose value compares equal ([==]) to the
    rule's value.  When that holds, a rule without a truthy 4th element
    (an "all" rule, the default of a 3-element rule) is violated exactly
    when some requirement term has presence count 0, and a rule with a
    truthy 4th element (an "any" rule) is violated exactly when it has
    requirement terms and every one of them has presence count 0.  The
    check returns the empty list when no rule is violated and raises
    otherwise. *)
Theorem check_required_if_spec
    (py_str : value → string) (req : requirement)
    (requirements : list requirement) (mp : gmap string value) :
  let applies := ∃ v, mp !! req_key req = Some v ∧ py_eq v (req_val req) = true in
  (violated req mp
   ↔ applies
     ∧ if truthy (req_is_one_of req)
       then req_requirements req ≠ []
            ∧ ∀ t, t ∈ req_requirements req → count_terms t mp = 0
       else ∃ t, t ∈ req_requirements req ∧ count_terms t mp = 0)
  ∧ (∀ key val rs, truthy (req_is_one_of (Req3 key val rs)) = false)
  ∧ (∀ report,
       eval_requirement req mp = Some report →
       report.(missing)
       = filter (λ t, count_terms t mp = 0) (req_requirements req)
       ∧ report.(requires) = (if truthy (req_is_one_of req) then "any" else "all"))
  ∧ (check_required_if py_str (Some requirements) mp = Return []
     ↔ ∀ r, r ∈ requirements → ¬ violated r mp)
  ∧ (raises (check_required_if py_str (Some requirements) mp)
     ↔ ∃ r, r ∈ requirements ∧ violated r mp).
Proof.
  intros applies. split; [|split; [|split; [|split]]].
  - subst applies. rewrite <- req_applies_true. apply violated_iff.
  - reflexivity.
  - intros report [_ ->]%eval_requirement_report. done.
  - rewrite check_required_if_return, required_if_results_nil. unfold violated.
    split; intros H r Hr.
    + rewrite (H r Hr). by intros [? ?].
    + apply eq_None_not_Some. by apply H.
  - rewrite check_required_if_raises. unfold violated. split.
    + intros Hne. destruct (required_if_results requirements mp)
        as [|report rest] eqn:Hres; [done|].
      assert (Hin : report ∈ required_if_results requirements mp)
        by (rewrite Hres; left).
      apply list_elem_of_omap in Hin as (r & Hr & He). exists r. split; [done|].
      by exists report.
    + intros (r & Hr & [report He]) Hnil.
      assert (Hnone := proj1 (required_if_results_nil requirements mp) Hnil r Hr).
      congruence.
Qed.

(** The rule [("flag", 1, ["x"])] against [{flag: True}]: the rule
    applies and is violated, although the value of [flag] is the boolean
    [True] and the rule names the integer [1]. *)
Lemma check_required_if_bool_equals_int :
  required_if_results [Req3 "flag" (VInt 1) [TName "x"]] {["flag" := VBool true]}
  = [MissingReport [TName "x"] "all" "flag" (VInt 1) [TName "x"]]
  ∧ ({["flag" := VBool true]} : gmap string value) !! "flag" = Some (VBool true)
  ∧ VBool true ≠ VInt 1
  ∧ py_eq (VBool true) (VInt 1) = true.
Proof.
  split; [vm_compute; reflexivity|]. split; [vm_compute; reflexivity|].
  split; [discriminate | reflexivity].
Qed.

(** The examples of the specification: the "any" rule
    [(state, present, [x, y], True)] and the "all" rule
    [(state, present, [x, y])]. *)
Example required_if_any_all :
  required_if_results
    [Req4 "state" (VStr "present") [TName "x"; TName "y"] (VBool true)]
    {["state" := VStr "present"; "x" := VInt 1]} = []
  ∧ required_if_results
      [Req4 "state" (VStr "present") [TName "x"; TName "y"] (VBool true)]
      {["state" := VStr "present"]}
    = [MissingReport [TName "x"; TName "y"] "any" "state" (VStr "present")
                     [TName "x"; TName "y"]]
  ∧ required_if_results
      [Req3 "state" (VStr "present") [TName "x"; TName "y"]]
      {["state" := VStr "present"; "x" := VInt 1]}
    = [MissingReport [TName "y"] "all" "state" (VStr "present")
                     [TName "x"; TName "y"]].
Proof. repeat split; vm_compute; reflexivity. Qed.

(** ** Which violations a failure reports *)

Section Reporting.

Implicit Types (mp : gmap string value).

Lemma check_required_one_of_first (terms : list term) mp :
  check_required_one_of (Some terms) mp
  = check_required_one_of (Some (take 1 (required_one_of_results terms mp))) mp.
Proof.
  unfold check_required_one_of, required_one_of_results.
  rewrite filter_take_1. by destruct (filter _ terms).
Qed.

Lemma check_required_together_first (groups : list (list term)) mp :
  check_required_together (Some groups) mp
  = check_required_together
      (Some (take 1 (required_together_results groups mp))) mp.
Proof.
  unfold check_required_together, required_together_results.
  rewrite filter_take_1. by destruct (filter _ groups).
Qed.

Lemma required_if_results_first (requirements : list requirement) mp :
  required_if_results
    (take 1 (filter (λ r, is_Some (eval_requirement r mp)) requirements)) mp
  = take 1 (required_if_results requirements mp).
Proof.
  unfold required_if_results.
  induction requirements as [|r requirements IH]; [done|]. simpl.
  destruct (eval_requirement r mp) as [report|] eqn:He.
  - rewrite filter_cons_True by (by rewrite He). simpl. by rewrite He, !take_0.
  - rewrite filter_cons_False by (rewrite He; by intros [? ?]). exact IH.
Qed.

Lemma check_required_if_first py_str (requirements : list requirement) mp :
  check_required_if py_str (Some requirements) mp
  = check_required_if py_str
      (Some (take 1 (filter (λ r, is_Some (eval_requirement r mp)) requirements)))
      mp.
Proof.
  unfold check_required_if. rewrite required_if_results_first.
  by destruct (required_if_results requirements mp).
Qed.

Lemma nonempty_entries (requirements : list (string * term)) mp :
  filter (λ entry : string * list string, 0 < length entry.2)
         (driver_entry mp <$> fired mp requirements)
  = driver_entry mp <$> unmet mp requirements.
Proof.
  unfold fired, unmet. induction requirements as [|item requirements IH]; [done|].
  destruct (decide (unset mp item.1 = false)) as [Hf|Hf].
  - rewrite (filter_cons_True (λ item, unset mp item.1 = false)) by done.
    rewrite fmap_cons.
    destruct (decide (0 < length (driver_entry mp item).2)) as [Hm|Hm].
    + rewrite !filter_cons_True by done. rewrite fmap_cons. by f_equal.
    + rewrite !filter_cons_False by tauto. exact IH.
  - rewrite !filter_cons_False by tauto. exact IH.
Qed.

Lemma check_required_by_first (requirements : list (string * term)) mp e :
  dict_wf requirements →
  check_required_by (Some requirements) mp = Raise e
  ↔ check_required_by (Some (take 1 (unmet mp requirements))) mp = Raise e.
Proof.
  intros Hwf. unfold check_required_by at 1.
  rewrite required_by_result_wf, nonempty_entries by done.
  destruct (unmet mp requirements) as [|[key deps] rest] eqn:Hu.
  { simpl. done. }
  apply filter_head_inv in Hu as [[Hfired Hlen] _]. simpl in Hfired.
  simpl. rewrite take_0. unfold check_required_by, required_by_result. simpl.
  rewrite Hfired, string_names. simpl.
  change (filter (λ required, unset mp required = true) (listify deps))
    with (driver_entry mp (key, deps)).2.
  rewrite filter_cons_True by done. done.
Qed.

End Reporting.

(** Two violated terms, [[x]] and [[y]], against the empty mapping:
    the failure of [check_required_one_of] is the message for [[x]]
    alone, in which [y] does not occur. *)
Lemma check_required_one_of_reports_first_only :
  required_one_of_results [TSeq ["x"]; TSeq ["y"]] ∅ = [TSeq ["x"]; TSeq ["y"]]
  ∧ check_required_one_of (Some [TSeq ["x"]; TSeq ["y"]]) ∅
    = Raise (TypeError "one of the following is required: x")
  ∧ mentions "one of the following is required: x" "y" = false.
Proof. repeat split; vm_compute; reflexivity. Qed.

(** C2. [check_mutually_exclusive], [check_required_arguments] and
    [check_missing_parameters] raise one failure whose message lists
    every violation found.  [check_required_one_of],
    [check_required_together] and [check_required_by] collect every
    violation but raise for the first one only: the outcome is that of
    the same check run on the first violation alone. *)
Theorem violations_reported
    (terms : list term) (groups : list (list term))
    (requirements : list (string * term))
    (argument_spec : list (string * gmap string value))
    (required_parameters : list string) (mp : gmap string value)
    (Hwf : dict_wf requirements) :
  (let violations := mutually_exclusive_results terms mp in
   violations ≠ [] →
   check_mutually_exclusive (Some terms) mp
   = Raise (TypeError
              ("parameters are mutually exclusive: "
               +:+ join ", " ((λ t, join "|" (iter_term t)) <$> violations))))
  ∧ (let missing := required_arguments_missing argument_spec mp in
     missing ≠ [] →
     check_required_arguments (Some argument_spec) mp
     = Raise (TypeError ("missing required arguments: " +:+ join ", " missing)))
  ∧ (let missing := missing_parameters mp required_parameters in
     missing ≠ [] →
     check_missing_parameters mp (Some required_parameters)
     = Raise (TypeError ("missing required arguments: " +:+ join ", " missing)))
  ∧ check_required_one_of (Some terms) mp
    = check_required_one_of (Some (take 1 (required_one_of_results terms mp))) mp
  ∧ check_required_together (Some groups) mp
    = check_required_together
        (Some (take 1 (required_together_results groups mp))) mp
  ∧ (∀ e, check_required_by (Some requirements) mp = Raise e
          ↔ check_required_by (Some (take 1 (unmet mp requirements))) mp = Raise e).
Proof.
  split; [|split; [|split; [|split; [|split]]]].
  - intros violations Hne. unfold check_mutually_exclusive. fold violations.
    by destruct violations.
  - intros missing Hne. unfold check_required_arguments. fold missing.
    by destruct missing.
  - intros missing Hne. unfold check_missing_parameters. fold missing.
    by destruct missing.
  - apply check_required_one_of_first.
  - apply check_required_together_first.
  - intros e. by apply check_required_by_first.
Qed.

(** Requirements [{a: [b], c: [d]}] against [{a: 1, c: 2}]: both
    drivers have a missing dependent, the failure is the one of [a]. *)
Lemma violations_reported_witness :
  dict_wf [("a", TSeq ["b"]); ("c", TSeq ["d"])]
  ∧ unmet {["a" := VInt 1; "c" := VInt 2]} [("a", TSeq ["b"]); ("c", TSeq ["d"])]
    = [("a", TSeq ["b"]); ("c", TSeq ["d"])]
  ∧ check_required_by (Some [("a", TSeq ["b"])]) {["a" := VInt 1; "c" := VInt 2]}
    = Raise (TypeError "missing parameter(s) required by 'a': b")
  ∧ check_required_by (Some [("a", TSeq ["b"]); ("c", TSeq ["d"])])
                      {["a" := VInt 1; "c" := VInt 2]}
    = Raise (TypeError "missing parameter(s) required by 'a': b").
Proof.
  assert (Hwf : dict_wf [("a", TSeq ["b"]); ("c", TSeq ["d"])]).
  { unfold dict_wf. simpl. apply NoDup_cons. split; [|apply NoDup_singleton].
    intros Hin%list_elem_of_singleton. discriminate. }
  assert (Hunmet : unmet {["a" := VInt 1; "c" := VInt 2]}
                         [("a", TSeq ["b"]); ("c", TSeq ["d"])]
                   = [("a", TSeq ["b"]); ("c", TSeq ["d"])])
    by (vm_compute; reflexivity).
  assert (Hfirst : check_required_by (Some [("a", TSeq ["b"])])
                                     {["a" := VInt 1; "c" := VInt 2]}
                   = Raise (TypeError "missing parameter(s) required by 'a': b"))
    by (vm_compute; reflexivity).
  split; [exact Hwf|]. split; [exact Hunmet|]. split; [exact Hfirst|].
  apply (proj2 (proj2 (proj2 (proj2 (proj2
           (violations_reported [] [] [("a", TSeq ["b"]); ("c", TSeq ["d"])] [] []
                                {["a" := VInt 1; "c" := VInt 2]} Hwf)))))).
  rewrite Hunmet. exact Hfirst.
Defined.


(** * Further properties of the checks *)

(** ** Presence counts *)

Section CountFacts.

Implicit Types (mp : gmap string value) (t : term).

Lemma count_terms_dom t mp mp' :
  dom mp = dom mp' → count_terms t mp = count_terms t mp'.
Proof. intros Hdom. rewrite !count_terms_names. by rewrite Hdom. Qed.

Lemma remove_dups_shorter (names : list string) :
  length (remove_dups names) ≤ length names.
Proof.
  induction names as [|n names IH]; simpl; [done|].
  destruct (decide_rel elem_of n names); simpl; lia.
Qed.

Lemma count_terms_le_names t mp : count_terms t mp ≤ length (listify t).
Proof.
  rewrite count_terms_distinct.
  etrans; [apply length_filter|]. apply remove_dups_shorter.
Qed.

Lemma count_terms_le_size t mp : count_terms t mp ≤ size mp.
Proof.
  rewrite count_terms_names, <- size_dom.
  apply subseteq_size. apply intersection_subseteq_r.
Qed.

Lemma count_terms_mono t mp mp' :
  mp ⊆ mp' → count_terms t mp ≤ count_terms t mp'.
Proof.
  intros Hsub. rewrite !count_terms_names. apply subseteq_size.
  apply subseteq_dom in Hsub.
  intros n [Hn Hd]%elem_of_intersection. apply elem_of_intersection.
  split; [done | by apply Hsub].
Qed.

Lemma count_terms_pos t mp :
  0 < count_terms t mp ↔ ∃ n, n ∈ listify t ∧ is_Some (mp !! n).
Proof.
  rewrite count_terms_distinct, filter_nonempty.
  split; intros (n & Hn & Hsome); exists n; split; try done;
    by apply elem_of_remove_dups.
Qed.

End CountFacts.

(** X1. The presence count of a term is at most the number of names
    the term lists and at most the number of keys of the mapping. *)
Theorem count_terms_bounds (t : term) (mp : gmap string value) :
  count_terms t mp ≤ length (listify t) ∧ count_terms t mp ≤ size mp.
Proof. split; [apply count_terms_le_names | apply count_terms_le_size]. Qed.

(** X2. Adding parameters to the mapping never lowers a presence
    count; so it never creates a violation of [check_required_one_of],
    and removing parameters never creates a violation of
    [check_mutually_exclusive]. *)
Theorem count_terms_monotone
    (terms : list term) (mp mp' : gmap string value) (Hsub : mp ⊆ mp') :
  (∀ t, count_terms t mp ≤ count_terms t mp')
  ∧ (check_required_one_of (Some terms) mp = Return [] →
     check_required_one_of (Some terms) mp' = Return [])
  ∧ (check_mutually_exclusive (Some terms) mp' = Return [] →
     check_mutually_exclusive (Some terms) mp = Return []).
Proof.
  assert (Hmono : ∀ t, count_terms t mp ≤ count_terms t mp')
    by (intros t; by apply count_terms_mono).
  split; [exact Hmono|]. split.
  - unfold check_required_one_of, required_one_of_results.
    destruct (filter _ terms) as [|t rest] eqn:Hf; [|discriminate]. intros _.
    destruct (filter (λ term, count_terms term mp' = 0) terms) as [|t rest] eqn:Hf';
      [done|].
    apply filter_head_inv in Hf' as [Hzero Ht].
    destruct (filter_nil_none _ _ _ Hf Ht). specialize (Hmono t). lia.
  - unfold check_mutually_exclusive, mutually_exclusive_results.
    destruct (filter _ terms) as [|t rest] eqn:Hf; [|discriminate]. intros _.
    destruct (filter (λ check, 1 < count_terms check mp) terms) as [|t rest] eqn:Hf';
      [done|].
    apply filter_head_inv in Hf' as [Hmany Ht].
    destruct (filter_nil_none _ _ _ Hf Ht). specialize (Hmono t). lia.
Qed.

(** [{a: 1}] is included in [{a: 1, b: 2}]. *)
Lemma count_terms_monotone_witness :
  ({["a" := VInt 1]} : gmap string value) ⊆ {["a" := VInt 1; "b" := VInt 2]}
  ∧ ∀ t, count_terms t {["a" := VInt 1]}
         ≤ count_terms t {["a" := VInt 1; "b" := VInt 2]}.
Proof.
  assert (Hsub : ({["a" := VInt 1]} : gmap string value)
                 ⊆ {["a" := VInt 1; "b" := VInt 2]}).
  { apply map_subseteq_spec. intros k v Hk.
    apply lookup_singleton_Some in Hk as [<- <-]. reflexivity. }
  split; [exact Hsub|].
  exact (proj1 (count_terms_monotone [] _ _ Hsub)).
Defined.

(** X3. [check_mutually_exclusive], [check_required_one_of] and
    [check_required_together] only look at which names are keys of the
    mapping, never at the values: two mappings with the same keys give
    the same outcome (a parameter set to [None] counts as present). *)
Theorem count_checks_ignore_values
    (terms : list term) (groups : list (list term))
    (mp mp' : gmap string value) (Hdom : dom mp = dom mp') :
  check_mutually_exclusive (Some terms) mp = check_mutually_exclusive (Some terms) mp'
  ∧ check_required_one_of (Some terms) mp = check_required_one_of (Some terms) mp'
  ∧ check_required_together (Some groups) mp
    = check_required_together (Some groups) mp'.
Proof.
  assert (Hcount : ∀ t, count_terms t mp = count_terms t mp')
    by (intros t; by apply count_terms_dom).
  split; [|split].
  - unfold check_mutually_exclusive, mutually_exclusive_results.
    rewrite (list_filter_iff _ (λ check, 1 < count_terms check mp')); [done|].
    intros t. by rewrite Hcount.
  - unfold check_required_one_of, required_one_of_results.
    rewrite (list_filter_iff _ (λ term, count_terms term mp' = 0)); [done|].
    intros t. by rewrite Hcount.
  - unfold check_required_together, required_together_results.
    rewrite (list_filter_iff _
               (λ term,
                  let counts := together_counts term mp' in
                  let non_zero := filter (λ c, 0 < c) counts in
                  0 < length non_zero ∧ 0 ∈ counts)); [done|].
    intros g. simpl. unfold together_counts.
    assert (Heq : ((λ field, count_terms field mp) <$> g)
                  = ((λ field, count_terms field mp') <$> g))
      by (apply list_fmap_ext; intros i t _; apply Hcount).
    by rewrite Heq.
Qed.

(** [{a: 1, b: 2}] and [{a: None, b: None}] have the same keys. *)
Lemma count_checks_ignore_values_witness :
  dom ({["a" := VInt 1; "b" := VInt 2]} : gmap string value)
  = dom ({["a" := VNone; "b" := VNone]} : gmap string value)
  ∧ check_mutually_exclusive (Some [TSeq ["a"; "b"]]) {["a" := VInt 1; "b" := VInt 2]}
    = check_mutually_exclusive (Some [TSeq ["a"; "b"]]) {["a" := VNone; "b" := VNone]}.
Proof.
  assert (Hdom : dom ({["a" := VInt 1; "b" := VInt 2]} : gmap string value)
                 = dom ({["a" := VNone; "b" := VNone]} : gmap string value)).
  { rewrite !dom_insert_L. reflexivity. }
  split; [exact Hdom|].
  exact (proj1 (count_checks_ignore_values [TSeq ["a"; "b"]] [] _ _ Hdom)).
Defined.

(** ** [None] and absence in check_required_by *)

Section RequiredByNone.

Implicit Types (mp : gmap string value) (requirements : list (string * term)).

Lemma required_by_step_ext mp mp' result item :
  (∀ n, unset mp n = unset mp' n) →
  required_by_step mp result item = required_by_step mp' result item.
Proof.
  intros Hsame. destruct item as [key value]. unfold required_by_step.
  rewrite <- (Hsame key). destruct (unset mp key); [done|]. f_equal.
  apply list_filter_iff. intros n. by rewrite Hsame.
Qed.

Lemma required_by_result_ext mp mp' requirements :
  (∀ n, unset mp n = unset mp' n) →
  required_by_result requirements mp = required_by_result requirements mp'.
Proof.
  intros Hsame. unfold required_by_result. generalize (@nil (string * list string)).
  induction requirements as [|item requirements IH]; intros result; simpl; [done|].
  rewrite (required_by_step_ext mp mp' result item Hsame). apply IH.
Qed.

Lemma unset_none_delete mp key n :
  unset (<[key := VNone]> mp) n = unset (delete key mp) n.
Proof.
  unfold unset. destruct (decide (key = n)) as [->|Hne].
  - by rewrite lookup_insert_eq, lookup_delete_eq.
  - by rewrite lookup_insert_ne, lookup_delete_ne.
Qed.

End RequiredByNone.

(** X4. For [check_required_by] a parameter whose value is [None] is
    the same as a parameter that is not supplied: setting any key to
    [None] gives the outcome of removing that key, whether the key is a
    driver, a dependent or neither. *)
Theorem check_required_by_none_is_absent
    (requirements : option (list (string * term)))
    (mp : gmap string value) (key : string) :
  check_required_by requirements (<[key := VNone]> mp)
  = check_required_by requirements (delete key mp).
Proof.
  destruct requirements as [requirements|]; [|done]. unfold check_required_by.
  by rewrite (required_by_result_ext (<[key := VNone]> mp) (delete key mp)
                requirements (unset_none_delete mp key)).
Qed.

(** ** check_required_one_of *)

Section RequiredOneOf.

Implicit Types (mp : gmap string value) (terms : list term).

Lemma required_one_of_results_nil terms mp :
  required_one_of_results terms mp = []
  ↔ ∀ t, t ∈ terms → ∃ n, n ∈ listify t ∧ is_Some (mp !! n).
Proof.
  unfold required_one_of_results. split.
  - intros Hnil t Ht. apply count_terms_pos.
    pose proof (filter_nil_none _ _ _ Hnil Ht). simpl in *. lia.
  - intros Hall. destruct (filter _ terms) as [|t rest] eqn:Hf; [done|].
    apply filter_head_inv in Hf as [Hzero Ht].
    apply Hall, count_terms_pos in Ht. lia.
Qed.

Lemma check_required_one_of_head t rest mp :
  (∀ n, n ∈ listify t → mp !! n = None) →
  check_required_one_of (Some (t :: rest)) mp
  = Raise (TypeError
             ("one of the following is required: " +:+ join ", " (iter_term t))).
Proof.
  intros Hnone%count_terms_zero.
  unfold check_required_one_of, required_one_of_results.
  by rewrite filter_cons_True.
Qed.

End RequiredOneOf.

(** X5. [check_required_one_of] returns the empty list exactly when
    every term has at least one name that is a key of the mapping, and
    raises otherwise.  When the first term has none, the message lists
    that term; a term given as a bare string is then rendered character
    by character, because the message is built with [', '.join(term)]. *)
Theorem check_required_one_of_spec (terms : list term) (mp : gmap string value) :
  (check_required_one_of (Some terms) mp = Return []
   ↔ ∀ t, t ∈ terms → ∃ n, n ∈ listify t ∧ is_Some (mp !! n))
  ∧ (raises (check_required_one_of (Some terms) mp)
     ↔ ∃ t, t ∈ terms ∧ ∀ n, n ∈ listify t → mp !! n = None)
  ∧ (∀ names,
       (∀ n, n ∈ names → mp !! n = None) →
       check_required_one_of (Some (TSeq names :: terms)) mp
       = Raise (TypeError
                  ("one of the following is required: " +:+ join ", " names)))
  ∧ (∀ name,
       mp !! name = None →
       check_required_one_of (Some (TName name :: terms)) mp
       = Raise (TypeError
                  ("one of the following is required: "
                   +:+ join ", " (iter_str name)))).
Proof.
  split; [|split; [|split]].
  - rewrite <- required_one_of_results_nil. unfold check_required_one_of.
    by destruct (required_one_of_results terms mp).
  - unfold raises, check_required_one_of, required_one_of_results. split.
    + intros [e He]. destruct (filter _ terms) as [|t rest] eqn:Hf; [discriminate|].
      apply filter_head_inv in Hf as [Hzero Ht]. simpl in Hzero.
      pose proof (proj1 (count_terms_zero t mp) Hzero) as Hnone. eauto.
    + intros (t & Ht & Hnone%count_terms_zero).
      destruct (filter _ terms) as [|t' rest] eqn:Hf; [|eauto].
      by destruct (filter_nil_none _ _ _ Hf Ht).
  - intros names Hnone. by apply (check_required_one_of_head (TSeq names)).
  - intros name Hnone. apply (check_required_one_of_head (TName name)).
    intros n ->%list_elem_of_singleton. done.
Qed.

(** A bare string where a list of names was meant: [required_one_of =
    ["state"]] against [{}]. *)
Example check_required_one_of_bare_string :
  check_required_one_of (Some [TName "state"]) ∅
  = Raise (TypeError "one of the following is required: s, t, a, t, e").
Proof. vm_compute. reflexivity. Qed.

(** X6. The same terms passed to [check_required_one_of] and to
    [check_mutually_exclusive]: both checks succeed exactly when every
    term has presence count 1, that is, exactly one of its distinct
    names is a key of the mapping. *)
Theorem one_of_and_exclusive (terms : list term) (mp : gmap string value) :
  (check_required_one_of (Some terms) mp = Return []
   ∧ check_mutually_exclusive (Some terms) mp = Return [])
  ↔ ∀ t, t ∈ terms →
         ∃ n, n ∈ listify t ∧ is_Some (mp !! n)
              ∧ ∀ n', n' ∈ listify t → is_Some (mp !! n') → n' = n.
Proof.
  assert (Hone : ∀ t, count_terms t mp = 1
                      ↔ ∃ n, n ∈ listify t ∧ is_Some (mp !! n)
                             ∧ ∀ n', n' ∈ listify t → is_Some (mp !! n') → n' = n).
  { intros t. rewrite count_terms_distinct.
    set (present := filter (λ n, is_Some (mp !! n)) (remove_dups (listify t))).
    assert (Hin : ∀ n, n ∈ present ↔ n ∈ listify t ∧ is_Some (mp !! n)).
    { intros n. unfold present.
      rewrite list_elem_of_filter, elem_of_remove_dups. tauto. }
    assert (Hnd : NoDup present)
      by (apply NoDup_filter, NoDup_remove_dups).
    split.
    - destruct present as [|n [|n' rest]]; simpl; try discriminate. intros _.
      exists n. destruct (proj1 (Hin n)) as [Hn Hsome]; [left|].
      split; [done|]. split; [done|]. intros n' Hn' Hsome'.
      assert (Hmem : n' ∈ [n]) by (apply Hin; done).
      by apply list_elem_of_singleton in Hmem.
    - intros (n & Hn & Hsome & Huniq).
      assert (Hmem : n ∈ present) by (by apply Hin).
      destruct present as [|a [|b rest]]; simpl.
      + by apply elem_of_nil in Hmem.
      + done.
      + exfalso. apply NoDup_cons in Hnd as [Hab _]. apply Hab.
        assert (Ha : a = n).
        { destruct (proj1 (Hin a)) as [? ?]; [left|]. by apply Huniq. }
        assert (Hb : b = n).
        { destruct (proj1 (Hin b)) as [? ?]; [right; left|]. by apply Huniq. }
        subst. left. }
  unfold check_required_one_of, check_mutually_exclusive,
    required_one_of_results, mutually_exclusive_results.
  split.
  - intros [H0 H1] t Ht. apply Hone.
    destruct (filter (λ term, count_terms term mp = 0) terms) eqn:Hf0;
      [|discriminate].
    destruct (filter (λ check, 1 < count_terms check mp) terms) eqn:Hf1;
      [|discriminate].
    pose proof (filter_nil_none _ _ _ Hf0 Ht).
    pose proof (filter_nil_none _ _ _ Hf1 Ht). simpl in *. lia.
  - intros Hall.
    destruct (filter (λ term, count_terms term mp = 0) terms) as [|t rest] eqn:Hf0.
    + destruct (filter (λ check, 1 < count_terms check mp) terms)
        as [|t rest] eqn:Hf1; [done|].
      apply filter_head_inv in Hf1 as [Hmany Ht]. apply Hall, Hone in Ht. lia.
    + apply filter_head_inv in Hf0 as [Hzero Ht]. apply Hall, Hone in Ht. lia.
Qed.

(** ** Groups and rules that cannot be violated *)

(** X7. A group of [check_required_together] with fewer than two
    terms can never be a violation: when every group has at most one
    term the check returns the empty list, whatever the mapping. *)
Theorem check_required_together_small_groups
    (groups : list (list term)) (mp : gmap string value)
    (Hsmall : ∀ g, g ∈ groups → length g ≤ 1) :
  check_required_together (Some groups) mp = Return [].
Proof.
  unfold check_required_together.
  destruct (required_together_results groups mp) as [|g rest] eqn:Hres; [done|].
  exfalso. unfold required_together_results in Hres.
  apply filter_head_inv in Hres as [Hviol Hg].
  apply together_violation in Hviol as [(f & Hf & Hpos) (f0 & Hf0 & Hzero)].
  specialize (Hsmall g Hg). destruct g as [|t [|t' g]]; simpl in Hsmall; [| |lia].
  - by apply elem_of_nil in Hf.
  - apply list_elem_of_singleton in Hf, Hf0. subst. lia.
Qed.

(** The groups [[[a]], []] against [{a: 1}]. *)
Lemma check_required_together_small_groups_witness :
  (∀ g : list term, g ∈ [[TName "a"]; []] → length g ≤ 1)
  ∧ check_required_together (Some [[TName "a"]; []]) {["a" := VInt 1]} = Return [].
Proof.
  assert (Hsmall : ∀ g : list term, g ∈ [[TName "a"]; []] → length g ≤ 1).
  { intros g. rewrite !elem_of_cons, elem_of_nil.
    intros [->|[->|[]]]; simpl; lia. }
  split; [exact Hsmall|].
  exact (check_required_together_small_groups _ _ Hsmall).
Defined.

(** X8. An "any" rule of [check_required_if] is never violated
    unless the "all" rule with the same key, value and requirement terms
    is violated too. *)
Theorem required_if_any_weaker_than_all
    (key : string) (val : value) (rs : list term) (is_one_of : value)
    (mp : gmap string value)
    (Hany : violated (Req4 key val rs is_one_of) mp) :
  violated (Req3 key val rs) mp.
Proof.
  apply violated_iff in Hany as [Happ Hcond]. apply violated_iff.
  split; [exact Happ|]. simpl in *.
  destruct (truthy is_one_of); [|exact Hcond].
  destruct Hcond as [Hne Hall]. destruct rs as [|t rs]; [done|].
  exists t. split; [left|]. apply Hall. left.
Qed.

(** The "any" rule [(state, present, [x, y], True)] against
    [{state: present}]. *)
Lemma required_if_any_weaker_than_all_witness :
  violated (Req4 "state" (VStr "present") [TName "x"; TName "y"] (VBool true))
           {["state" := VStr "present"]}
  ∧ violated (Req3 "state" (VStr "present") [TName "x"; TName "y"])
             {["state" := VStr "present"]}.
Proof.
  assert (Hany : violated
                   (Req4 "state" (VStr "present") [TName "x"; TName "y"] (VBool true))
                   {["state" := VStr "present"]}).
  { unfold violated. vm_compute. eexists. reflexivity. }
  split; [exact Hany|].
  exact (required_if_any_weaker_than_all _ _ _ _ _ Hany).
Defined.

(** ** Presence and truthiness *)

(** X9. [check_missing_parameters] is the stricter test: when it
    succeeds for a list of names, [check_required_arguments] succeeds
    for every argument specification whose names all belong to that
    list, whatever their [required] flags. *)
Theorem missing_parameters_stricter
    (names : list string) (argument_spec : list (string * gmap string value))
    (mp : gmap string value)
    (Hnames : ∀ k, k ∈ argument_spec.*1 → k ∈ names)
    (Hok : check_missing_parameters mp (Some names) = Return []) :
  check_required_arguments (Some argument_spec) mp = Return [].
Proof.
  unfold check_required_arguments, required_arguments_missing.
  destruct (filter _ argument_spec) as [|[k v] rest] eqn:Hf; [done|]. exfalso.
  apply filter_head_inv in Hf as [[_ Hkey] Hitem]. simpl in Hkey.
  apply has_key_false in Hkey.
  assert (Hk : k ∈ names).
  { apply Hnames, list_elem_of_fmap. by exists (k, v). }
  unfold check_missing_parameters, missing_parameters in Hok.
  destruct (filter _ names) as [|p ps] eqn:Hm; [|discriminate].
  apply (filter_nil_none _ _ _ Hm Hk). unfold dict_get. by rewrite Hkey.
Qed.

(** The names [a, b] with truthy values, and a specification that
    requires [a]. *)
Lemma missing_parameters_stricter_witness :
  (∀ k, k ∈ [("a", ({["required" := VBool true]} : gmap string value))].*1
        → k ∈ ["a"; "b"])
  ∧ check_missing_parameters {["a" := VInt 1; "b" := VStr "x"]} (Some ["a"; "b"])
    = Return []
  ∧ check_required_arguments
      (Some [("a", {["required" := VBool true]})])
      {["a" := VInt 1; "b" := VStr "x"]}
    = Return [].
Proof.
  assert (Hnames : ∀ k, k ∈ [("a", ({["required" := VBool true]}
                                       : gmap string value))].*1
                        → k ∈ ["a"; "b"]).
  { intros k ->%list_elem_of_singleton. left. }
  assert (Hok : check_missing_parameters {["a" := VInt 1; "b" := VStr "x"]}
                                         (Some ["a"; "b"]) = Return [])
    by (vm_compute; reflexivity).
  split; [exact Hnames|]. split; [exact Hok|].
  exact (missing_parameters_stricter _ _ _ Hnames Hok).
Defined.

(** ** Messages that [str.join] refuses to build *)

Section JoinFacts.

Implicit Types (names : list string) (fields : list term).

Lemma field_names_bare i names : field_names i (TName <$> names) = inr names.
Proof.
  revert i. induction names as [|n names IH]; intros i; simpl; [done|].
  by rewrite IH.
Qed.

Lemma field_names_seq i names seq later :
  field_names i ((TName <$> names) ++ TSeq seq :: later) = inl (i + length names).
Proof.
  revert i. induction names as [|n names IH]; intros i; simpl.
  - f_equal. lia.
  - rewrite IH. f_equal. lia.
Qed.

(** Every list of fields is a list of bare names, or has a first
    sequence. *)
Lemma fields_split fields :
  (∃ names, fields = TName <$> names)
  ∨ (∃ names seq later, fields = (TName <$> names) ++ TSeq seq :: later).
Proof.
  induction fields as [|[n|seq] fields IH].
  - left. by exists [].
  - destruct IH as [[names ->]|(names & seq & later & ->)].
    + left. by exists (n :: names).
    + right. by exists (n :: names), seq, later.
  - right. by exists [], seq, fields.
Qed.

Lemma join_fields_error sep fields i :
  join_fields sep fields = Raise (JoinTypeError i)
  ↔ ∃ names seq later,
      fields = (TName <$> names) ++ TSeq seq :: later ∧ i = length names.
Proof.
  unfold join_fields. split.
  - destruct (fields_split fields) as [[names ->]|(names & seq & later & ->)].
    + rewrite field_names_bare. discriminate.
    + rewrite field_names_seq. intros [= <-]. by exists names, seq, later.
  - intros (names & seq & later & -> & ->). by rewrite field_names_seq.
Qed.

End JoinFacts.

(** X10. [check_required_together] and [check_required_if] build
    their message with [', '.join] over terms.  When the first violating
    group (the missing list of the first violated rule) holds a sequence
    term, the join itself raises: the check fails with the [TypeError]
    of [str.join] about the position of the first sequence, and that
    happens in no other case. *)
Theorem join_refuses_sequence_terms
    (py_str : value → string) (groups : list (list term))
    (requirements : list requirement) (mp : gmap string value) (i : nat) :
  (check_required_together (Some groups) mp = Raise (JoinTypeError i)
   ↔ ∃ g rest names seq later,
       required_together_results groups mp = g :: rest
       ∧ g = (TName <$> names) ++ TSeq seq :: later ∧ i = length names)
  ∧ (check_required_if py_str (Some requirements) mp = Raise (JoinTypeError i)
     ↔ ∃ report rest names seq later,
         required_if_results requirements mp = report :: rest
         ∧ report.(missing) = (TName <$> names) ++ TSeq seq :: later
         ∧ i = length names).
Proof.
  split.
  - unfold check_required_together.
    destruct (required_together_results groups mp) as [|g rest].
    { split; [discriminate|]. by intros (? & ? & ? & ? & ? & ? & _). }
    split.
    + intros Hraise.
      assert (Hjoin : join_fields ", " g = Raise (JoinTypeError i))
        by (destruct (join_fields ", " g); simpl in Hraise;
            [discriminate | by injection Hraise as ->]).
      apply join_fields_error in Hjoin as (names & seq & later & -> & ->).
      by exists ((TName <$> names) ++ TSeq seq :: later), rest, names, seq, later.
    + intros (g' & rest' & names & seq & later & [= <- <-] & Hg & ->).
      assert (Hjoin : join_fields ", " g = Raise (JoinTypeError (length names)))
        by (apply join_fields_error; eauto).
      by rewrite Hjoin.
  - unfold check_required_if.
    destruct (required_if_results requirements mp) as [|report rest].
    { split; [discriminate|]. by intros (? & ? & ? & ? & ? & ? & _). }
    split.
    + intros Hraise.
      assert (Hjoin : join_fields ", " (missing report) = Raise (JoinTypeError i))
        by (destruct (join_fields ", " (missing report)); simpl in Hraise;
            [discriminate | by injection Hraise as ->]).
      apply join_fields_error in Hjoin as (names & seq & later & Hm & ->).
      by exists report, rest, names, seq, later.
    + intros (report' & rest' & names & seq & later & [= <- <-] & Hm & ->).
      assert (Hjoin : join_fields ", " (missing report)
                      = Raise (JoinTypeError (length names)))
        by (apply join_fields_error; eauto).
      by rewrite Hjoin.
Qed.

(** The group [[a, (b, c)]] against [{a: 1}]: the term [(b, c)] is
    missing, and the failure is the one of [str.join] at item 1. *)
Example check_required_together_join_error :
  check_required_together (Some [[TName "a"; TSeq ["b"; "c"]]]) {["a" := VInt 1]}
  = Raise (JoinTypeError 1).
Proof. vm_compute. reflexivity. Qed.


(** * Properties of the facts module *)

(** ** strip_interface_speed *)

Section SpeedFacts.

Implicit Types (s ds g rest : string) (c u : ascii) (k : nat).

Lemma is_unit_cases u : is_unit u = true → u = "g"%char ∨ u = "m"%char.
Proof.
  unfold is_unit. intros [H|H]%orb_true_iff; apply Ascii.eqb_eq in H; auto.
Qed.

Lemma unit_not_digit u : is_unit u = true → is_digit u = false.
Proof. by intros [-> | ->]%is_unit_cases. Qed.

Lemma digit_not c c' : is_digit c = true → is_digit c' = false → Ascii.eqb c' c = false.
Proof.
  intros Hc Hc'. apply Ascii.eqb_neq. intros ->. congruence.
Qed.

Lemma digit_lower c : is_digit c = true → lower_char c = c.
Proof.
  unfold is_digit, lower_char. intros [H1 H2]%andb_true_iff.
  apply Nat.leb_le in H1, H2.
  destruct (65 <=? nat_of_ascii c) eqn:H65; [|done].
  apply Nat.leb_le in H65. lia.
Qed.

Lemma drop_prefix_inv p s rest : drop_prefix p s = Some rest → s = p +:+ rest.
Proof.
  revert s. induction p as [|a p IH]; intros s; simpl.
  - by intros [= ->].
  - destruct s as [|b s]; [discriminate|].
    destruct (Ascii.eqb_spec a b) as [->|]; [|discriminate].
    intros Hd. by rewrite (IH s Hd).
Qed.

Lemma drop_prefix_app p rest : drop_prefix p (p +:+ rest) = Some rest.
Proof.
  induction p as [|a p IH]; simpl; [by destruct rest|].
  by rewrite Ascii.eqb_refl.
Qed.

Lemma digits_unit_inv k s g :
  digits_unit k s = Some g →
  ∃ ds u rest,
    s = ds +:+ String u rest ∧ all_digits ds = true ∧ String.length ds = k
    ∧ is_unit u = true ∧ g = ds +:+ String u "".
Proof.
  revert k g. induction s as [|c s IH]; intros k g; [by destruct k|].
  destruct k as [|k]; simpl.
  - destruct (is_unit c) eqn:Hu; [|discriminate]. intros [= <-].
    by exists "", c, s.
  - destruct (is_digit c) eqn:Hc; [|discriminate].
    destruct (digits_unit k s) as [g'|] eqn:Hg; [|discriminate]. intros [= <-].
    destruct (IH k g' Hg) as (ds & u & rest & -> & Hds & Hlen & Hu & ->).
    exists (String c ds), u, rest. simpl. rewrite Hc, Hds, Hlen. done.
Qed.

Lemma digits_unit_exact ds u rest :
  all_digits ds = true → is_unit u = true →
  digits_unit (String.length ds) (ds +:+ String u rest) = Some (ds +:+ String u "").
Proof.
  intros Hds Hu. induction ds as [|c ds IH]; simpl.
  - by rewrite Hu.
  - simpl in Hds. apply andb_true_iff in Hds as [Hc Hds].
    by rewrite Hc, (IH Hds).
Qed.

Lemma digits_unit_short k ds u rest :
  all_digits ds = true → is_unit u = true → String.length ds < k →
  digits_unit k (ds +:+ String u rest) = None.
Proof.
  intros Hds Hu. revert k. induction ds as [|c ds IH]; intros k Hk; simpl in *.
  - destruct k as [|k]; [lia|]. simpl. by rewrite (unit_not_digit u Hu).
  - apply andb_true_iff in Hds as [Hc Hds].
    destruct k as [|k]; [lia|]. simpl. rewrite Hc, (IH Hds k); [done | lia].
Qed.

Lemma match_speed_symbol s ds u :
  speed_symbol s ds u → match_speed s = Some ("speed" +:+ ds +:+ String u "").
Proof.
  intros (rest & -> & Hds & [Hlo Hhi] & Hu). unfold match_speed.
  rewrite drop_prefix_app.
  pose proof (digits_unit_exact ds u rest Hds Hu) as Hexact.
  destruct (decide (String.length ds = 3)) as [H3|H3].
  { rewrite H3 in Hexact. by rewrite Hexact. }
  rewrite (digits_unit_short 3 ds u rest Hds Hu) by lia.
  destruct (decide (String.length ds = 2)) as [H2|H2].
  { rewrite H2 in Hexact. by rewrite Hexact. }
  rewrite (digits_unit_short 2 ds u rest Hds Hu) by lia.
  replace (String.length ds) with 1 in Hexact by lia. by rewrite Hexact.
Qed.

Lemma match_speed_inv s g :
  match_speed s = Some g →
  ∃ ds u, speed_symbol s ds u ∧ g = "speed" +:+ ds +:+ String u "".
Proof.
  unfold match_speed.
  destruct (drop_prefix "speed" s) as [rest|] eqn:Hp; [|discriminate].
  apply drop_prefix_inv in Hp as ->.
  assert (Hk : ∀ k g', 1 ≤ k ≤ 3 → digits_unit k rest = Some g' →
                       ∃ ds u, speed_symbol ("speed" +:+ rest) ds u
                               ∧ "speed" +:+ g' = "speed" +:+ ds +:+ String u "").
  { intros k g' Hrange (ds & u & rest' & -> & Hds & Hlen & Hu & ->)%digits_unit_inv.
    exists ds, u. split; [|done]. exists rest'. rewrite Hlen. done. }
  destruct (digits_unit 3 rest) as [g3|] eqn:H3.
  { intros [= <-]. apply (Hk 3); [lia | done]. }
  destruct (digits_unit 2 rest) as [g2|] eqn:H2.
  { intros [= <-]. apply (Hk 2); [lia | done]. }
  destruct (digits_unit 1 rest) as [g1|] eqn:H1; [|discriminate].
  intros [= <-]. apply (Hk 1); [lia | done].
Qed.

Lemma replace_from_empty fuel old new :
  old ≠ "" → replace_from fuel old new "" = "".
Proof. intros Hold. destruct fuel; [done|]. simpl. by destruct old. Qed.

(** Digits followed by a unit hold no occurrence of ["speed"]. *)
Lemma replace_from_symbol fuel ds u :
  all_digits ds = true → is_unit u = true →
  replace_from fuel "speed" "" (ds +:+ String u "") = ds +:+ String u "".
Proof.
  intros Hds Hu. revert fuel. induction ds as [|c ds IH]; intros fuel.
  - destruct fuel as [|fuel]; [done|].
    destruct (is_unit_cases u Hu) as [-> | ->]; simpl;
      by rewrite replace_from_empty.
  - simpl in Hds. apply andb_true_iff in Hds as [Hc Hds].
    destruct fuel as [|fuel]; [done|].
    change (replace_from (S fuel) "speed" "" (String c ds +:+ String u ""))
      with (match (if Ascii.eqb "s" c
                   then drop_prefix "peed" (ds +:+ String u "") else None) with
            | Some rest => "" +:+ replace_from fuel "speed" "" rest
            | None => String c (replace_from fuel "speed" "" (ds +:+ String u ""))
            end).
    rewrite (digit_not c "s" Hc eq_refl). by rewrite IH.
Qed.

Lemma str_replace_symbol ds u :
  all_digits ds = true → is_unit u = true →
  str_replace "speed" "" ("speed" +:+ ds +:+ String u "") = ds +:+ String u "".
Proof.
  intros Hds Hu. unfold str_replace.
  change (replace_from (S ?n) "speed" "" ("speed" +:+ ?t))
    with (match drop_prefix "speed" ("speed" +:+ t) with
          | Some rest => "" +:+ replace_from n "speed" "" rest
          | None => String "s" (replace_from n "speed" "" ("peed" +:+ t))
          end).
  rewrite drop_prefix_app. cbv beta iota.
  change (String.append "" ?x) with x. by apply replace_from_symbol.
Qed.

(** A stripped symbol starts with a digit: it is neither ["auto"] nor
    ["unknown"], and does not match [auto]. *)
Lemma symbol_head ds u :
  all_digits ds = true → 1 ≤ String.length ds →
  ∃ c tail, ds +:+ String u "" = String c tail ∧ is_digit c = true.
Proof.
  intros Hds Hlen. destruct ds as [|c ds]; simpl in *; [lia|].
  apply andb_true_iff in Hds as [Hc _]. eauto.
Qed.

Lemma match_auto_digit c tail : is_digit c = true → match_auto (String c tail) = false.
Proof.
  intros Hc. unfold match_auto.
  change (String.prefix "auto" (String c tail))
    with (if ascii_dec "a" c then String.prefix "uto" tail else false).
  destruct (ascii_dec "a" c) as [<-|]; [discriminate Hc | done].
Qed.

Lemma scalar_speed_symbol s ds u :
  speed_symbol s ds u → scalar_speed s = ds +:+ String u "".
Proof.
  intros Hsym. unfold scalar_speed, strip_interface_speed.
  rewrite (match_speed_symbol s ds u Hsym).
  destruct Hsym as (rest & _ & Hds & [Hlo _] & Hu).
  rewrite (str_replace_symbol ds u Hds Hu).
  destruct (symbol_head ds u Hds Hlo) as (c & tail & -> & Hc).
  simpl. rewrite (digit_lower c Hc). by rewrite (match_auto_digit c _ Hc).
Qed.

Lemma scalar_speed_unknown s : match_speed s = None → scalar_speed s = "unknown".
Proof.
  intros Hnone. unfold scalar_speed, strip_interface_speed. by rewrite Hnone.
Qed.

(** The two cases of one string. *)
Lemma scalar_speed_cases s :
  (∃ ds u, speed_symbol s ds u ∧ match_speed s = Some ("speed" +:+ ds +:+ String u "")
           ∧ scalar_speed s = ds +:+ String u "")
  ∨ (match_speed s = None ∧ scalar_speed s = "unknown").
Proof.
  destruct (match_speed s) as [g|] eqn:Hm.
  - left. destruct (match_speed_inv s g Hm) as (ds & u & Hsym & ->).
    exists ds, u. split; [done|]. split; [done|]. by apply scalar_speed_symbol.
  - right. split; [done|]. by apply scalar_speed_unknown.
Qed.

Lemma strip_scalar s : strip_interface_speed (SpeedStr s) = SpeedStr (scalar_speed s).
Proof. reflexivity. Qed.

End SpeedFacts.

(** X11. On a string, [strip_interface_speed] returns the digits and
    the unit of the speed symbol the string starts with (["speed"], one
    to three digits, then [g] or [m]; what follows is ignored), and
    ["unknown"] when the string does not start with such a symbol. *)
Theorem strip_interface_speed_string (s : string) :
  (∀ ds u, speed_symbol s ds u →
           strip_interface_speed (SpeedStr s) = SpeedStr (ds +:+ String u ""))
  ∧ ((∀ ds u, ¬ speed_symbol s ds u) →
     strip_interface_speed (SpeedStr s) = SpeedStr "unknown").
Proof.
  rewrite strip_scalar. split.
  - intros ds u Hsym. by rewrite (scalar_speed_symbol s ds u Hsym).
  - intros Hnone. destruct (scalar_speed_cases s) as [(ds & u & Hsym & _)|[_ ->]];
      [|done].
    by destruct (Hnone ds u).
Qed.

(** The example of the docstring, a speed of four digits, and a speed
    with no unit. *)
Example strip_interface_speed_examples :
  strip_interface_speed (SpeedStr "speed10gig") = SpeedStr "10g"
  ∧ strip_interface_speed (SpeedStr "speed1000m") = SpeedStr "unknown"
  ∧ strip_interface_speed (SpeedStr "speed10") = SpeedStr "unknown".
Proof. repeat split; vm_compute; reflexivity. Qed.

(** X12. [strip_interface_speed] never returns ["auto"] for a
    string: its result is ["unknown"] or starts with a digit, so the
    branch that would return ["auto"] is never taken (["auto"] and
    ["speedAuto"] themselves give ["unknown"]). *)
Theorem strip_interface_speed_never_auto (s : string) :
  strip_interface_speed (SpeedStr s) ≠ SpeedStr "auto"
  ∧ (strip_interface_speed (SpeedStr s) = SpeedStr "unknown"
     ∨ ∃ c tail, strip_interface_speed (SpeedStr s) = SpeedStr (String c tail)
                 ∧ is_digit c = true)
  ∧ strip_interface_speed (SpeedStr "auto") = SpeedStr "unknown"
  ∧ strip_interface_speed (SpeedStr "speedAuto") = SpeedStr "unknown".
Proof.
  rewrite strip_scalar.
  assert (Hcases : scalar_speed s = "unknown"
                   ∨ ∃ c tail, scalar_speed s = String c tail ∧ is_digit c = true).
  { destruct (scalar_speed_cases s) as [(ds & u & Hsym & _ & ->)|[_ ->]]; [|by left].
    right. destruct Hsym as (_ & _ & Hds & [Hlo _] & _).
    destruct (symbol_head ds u Hds Hlo) as (c & tail & -> & Hc). eauto. }
  split; [|split; [|split]].
  - destruct Hcases as [->|(c & tail & -> & Hc)]; [discriminate|].
    intros [= -> _]. discriminate Hc.
  - destruct Hcases as [->|(c & tail & -> & Hc)]; [by left|]. right. eauto.
  - vm_compute. reflexivity.
  - vm_compute. reflexivity.
Qed.

Section SpeedListFacts.

Implicit Types (l : list string).

(** The list branch without the test of [result], which holds
    whenever the comprehension has an element to work on. *)
Lemma strip_list_unfold l :
  strip_interface_speed (SpeedList l)
  = SpeedList ((λ sp, if match_auto sp then "auto" else sp)
                 <$> (str_replace "speed" "" <$> omap id (match_speed <$> l))).
Proof. by destruct l. Qed.

Lemma strip_list_scalar l :
  (λ sp, if match_auto sp then "auto" else sp)
    <$> (str_replace "speed" "" <$> omap id (match_speed <$> l))
  = filter (λ r, r ≠ "unknown") (scalar_speed <$> l).
Proof.
  induction l as [|s l IH]; [done|]. rewrite !fmap_cons.
  destruct (scalar_speed_cases s) as [(ds & u & Hsym & Hm & Hs)|[Hm Hs]].
  - destruct Hsym as (_ & _ & Hds & [Hlo _] & Hu).
    rewrite Hm, Hs. simpl omap. rewrite !fmap_cons.
    rewrite (str_replace_symbol ds u Hds Hu).
    destruct (symbol_head ds u Hds Hlo) as (c & tail & Htail & Hc).
    rewrite Htail, (match_auto_digit c tail Hc).
    rewrite filter_cons_True; [f_equal; exact IH|].
    intros [= -> _]. discriminate Hc.
  - rewrite Hm, Hs. simpl omap. rewrite filter_cons_False; [exact IH|].
    by intros [].
Qed.

End SpeedListFacts.

(** X13. On a list, [strip_interface_speed] returns, in order, what
    it returns on each string of the list, except that the strings with
    no speed symbol are dropped instead of giving ["unknown"]: the
    result can be shorter than the argument, and holds neither
    ["unknown"] nor ["auto"]. *)
Theorem strip_interface_speed_list (l : list string) :
  let result := filter (λ r, r ≠ "unknown") (scalar_speed <$> l) in
  strip_interface_speed (SpeedList l) = SpeedList result
  ∧ length result ≤ length l
  ∧ ("unknown" ∉ result)
  ∧ ("auto" ∉ result).
Proof.
  intros result. split; [|split; [|split]].
  - by rewrite strip_list_unfold, strip_list_scalar.
  - subst result. etrans; [apply length_filter|]. by rewrite length_fmap.
  - subst result. by intros [Hne _]%list_elem_of_filter.
  - subst result. intros [_ (s & Hs & _)%list_elem_of_fmap]%list_elem_of_filter.
    destruct (scalar_speed_cases s) as [(ds & u & Hsym & _ & Heq)|[_ Heq]];
      rewrite Heq in Hs; [|discriminate].
    destruct Hsym as (_ & _ & Hds & [Hlo _] & _).
    destruct (symbol_head ds u Hds Hlo) as (c & tail & Htail & Hc).
    rewrite Htail in Hs. injection Hs as <- _. discriminate Hc.
Qed.

(** The supported speeds of an interface. *)
Example strip_interface_speed_list_example :
  strip_interface_speed (SpeedList ["speed10gig"; "speedAuto"; "speed1gig"; "none"])
  = SpeedList ["10g"; "1g"].
Proof. vm_compute. reflexivity. Qed.

(** ** Facts.get_controllers *)

Section StringOrder.

Implicit Types (a b c : string).

Lemma str_le_spec a b : str_le a b ↔ a = b ∨ OrderedTypeEx.String_as_OT.lt a b.
Proof.
  unfold str_le, String.leb.
  pose proof (OrderedTypeEx.String_as_OT.cmp_eq a b) as Heq.
  pose proof (OrderedTypeEx.String_as_OT.cmp_lt a b) as Hlt.
  unfold OrderedTypeEx.String_as_OT.cmp in *.
  destruct (String.compare a b); simpl.
  - split; [intros _|done]. left. by apply Heq.
  - split; [intros _|done]. right. by apply Hlt.
  - split; [done|]. intros [H|H]; [apply Heq in H | apply Hlt in H]; discriminate.
Qed.

Lemma str_lt_spec a b : str_lt a b ↔ OrderedTypeEx.String_as_OT.lt a b.
Proof.
  unfold str_lt, String.ltb.
  pose proof (OrderedTypeEx.String_as_OT.cmp_lt a b) as Hlt.
  unfold OrderedTypeEx.String_as_OT.cmp in *.
  destruct (String.compare a b); simpl.
  - split; [done|]. intros H%Hlt. discriminate.
  - split; [intros _|done]. by apply Hlt.
  - split; [done|]. intros H%Hlt. discriminate.
Qed.

Lemma str_le_total a b : str_le a b ∨ str_le b a.
Proof.
  unfold str_le. destruct (String.leb_total a b) as [-> | ->]; simpl; auto.
Qed.

Lemma str_le_antisym a b : str_le a b → str_le b a → a = b.
Proof.
  unfold str_le. intros H1%Is_true_true H2%Is_true_true.
  by apply String.leb_antisym.
Qed.

Lemma str_le_trans a b c : str_le a b → str_le b c → str_le a c.
Proof.
  rewrite !str_le_spec. intros [->|H1] [->|H2]; auto.
  right. by apply (OrderedTypeEx.String_as_OT.lt_trans a b c).
Qed.

Lemma str_lt_le a b : str_lt a b ↔ str_le a b ∧ a ≠ b.
Proof.
  rewrite str_lt_spec, str_le_spec. split.
  - intros Hlt. split; [by right|].
    intros ->. by apply (OrderedTypeEx.String_as_OT.lt_not_eq b b).
  - intros [[->|Hlt] Hne]; done.
Qed.

Lemma sort_strings_sorted (l : list string) : StronglySorted str_le (sort_strings l).
Proof.
  assert (Htrans : Transitive str_le) by (intros a b c; apply str_le_trans).
  assert (Htotal : Total str_le) by (intros a b; apply str_le_total).
  apply (StronglySorted_merge_sort str_le).
Qed.

Lemma sort_strings_perm (l : list string) : sort_strings l ≡ₚ l.
Proof. apply merge_sort_Permutation. Qed.

Lemma sort_strings_unique (l1 l2 : list string) :
  l1 ≡ₚ l2 → sort_strings l1 = sort_strings l2.
Proof.
  intros Hperm.
  assert (Hanti : AntiSymm eq str_le) by (intros a b; apply str_le_antisym).
  apply (StronglySorted_unique str_le).
  - apply sort_strings_sorted.
  - apply sort_strings_sorted.
  - by rewrite !sort_strings_perm.
Qed.

(** In a sorted list without repetition, the position of an element is
    the number of elements below it. *)
Lemma sorted_position (cs : list string) k c :
  StronglySorted str_le cs → NoDup cs → cs !! k = Some c →
  length (filter (λ x, str_lt x c) cs) = k.
Proof.
  revert k. induction cs as [|a cs IH]; intros k Hsorted Hnd Hk; [done|].
  apply StronglySorted_inv in Hsorted as [Hsorted Hall].
  apply NoDup_cons in Hnd as [Ha Hnd].
  rewrite Forall_forall in Hall.
  destruct k as [|k]; simpl in Hk.
  - injection Hk as ->. rewrite filter_cons_False.
    + destruct (filter (λ x, str_lt x c) cs) as [|x rest] eqn:Hf; [done|].
      apply filter_head_inv in Hf as [[Hle Hne]%str_lt_le Hx].
      destruct Hne. apply str_le_antisym; [done|]. by apply Hall.
    + intros [_ Hne]%str_lt_le. done.
  - assert (Hc : c ∈ cs) by (by eapply list_elem_of_lookup_2).
    rewrite filter_cons_True.
    + simpl. f_equal. by apply IH.
    + apply str_lt_le. split; [by apply Hall|]. by intros ->.
Qed.

End StringOrder.

Section ControllerFacts.

Variable chr : nat → string.

Implicit Types (cs : list string) (d : gmap string string) (i k : nat).

Lemma label_from_fresh i cs d c :
  c ∉ cs → label_from chr i cs d !! c = d !! c.
Proof.
  revert i d. induction cs as [|a cs IH]; intros i d Hc; simpl; [done|].
  apply not_elem_of_cons in Hc as [Hne Hc].
  rewrite IH by done. by rewrite lookup_insert_ne.
Qed.

Lemma label_from_lookup i cs d k c :
  NoDup cs → cs !! k = Some c → label_from chr i cs d !! c = Some (chr (i + k)).
Proof.
  revert i d k. induction cs as [|a cs IH]; intros i d k Hnd Hk; [done|].
  apply NoDup_cons in Hnd as [Ha Hnd]. destruct k as [|k]; simpl in *.
  - injection Hk as ->. rewrite label_from_fresh by done.
    rewrite lookup_insert_eq. by rewrite Nat.add_0_r.
  - rewrite (IH (i + 1) _ k Hnd Hk). do 2 f_equal. lia.
Qed.

Lemma label_from_dom i cs d :
  dom (label_from chr i cs d) = list_to_set cs ∪ dom d.
Proof.
  revert i d. induction cs as [|a cs IH]; intros i d; simpl.
  - by rewrite (left_id_L ∅ (∪)).
  - rewrite IH, dom_insert_L.
    by rewrite (assoc_L (∪)), (comm_L (∪) (list_to_set cs) {[a]}).
Qed.

End ControllerFacts.

(** X14. The labels that [get_controllers] gives do not depend on
    the order in which the request lists the controllers: two responses
    that are permutations of each other give the same dictionary. *)
Theorem get_controllers_order_independent
    (chr : nat → string) (ssid : string) (l1 l2 : list string)
    (Hperm : l1 ≡ₚ l2) :
  get_controllers chr ssid (inr l1) = get_controllers chr ssid (inr l2).
Proof.
  unfold get_controllers. by rewrite (sort_strings_unique l1 l2 Hperm).
Qed.

(** The responses [[b, a]] and [[a, b]]. *)
Lemma get_controllers_order_independent_witness :
  ["b"; "a"] ≡ₚ ["a"; "b"]
  ∧ get_controllers (λ i, String (ascii_of_nat i) "") "1" (inr ["b"; "a"])
    = get_controllers (λ i, String (ascii_of_nat i) "") "1" (inr ["a"; "b"]).
Proof.
  assert (Hperm : ["b"; "a"] ≡ₚ ["a"; "b"]) by apply Permutation_swap.
  split; [exact Hperm|].
  exact (get_controllers_order_independent _ "1" _ _ Hperm).
Defined.

(** X15. When the request succeeds with pairwise distinct controller
    references, [get_controllers] returns a dictionary whose keys are
    exactly these references, and the label of a reference is
    [chr(ord('A') + r)] where [r] is the number of references that sort
    before it: the smallest reference is labelled [A], the next [B], and
    so on. *)
Theorem get_controllers_labels
    (chr : nat → string) (ssid : string) (l : list string) (Hnd : NoDup l) :
  ∃ d, get_controllers chr ssid (inr l) = Returned d
       ∧ dom d = list_to_set l
       ∧ size d = length l
       ∧ ∀ c, c ∈ l →
              d !! c = Some (chr (65 + length (filter (λ x, str_lt x c) l))).
Proof.
  exists (label_from chr 65 (sort_strings l) ∅).
  pose proof (sort_strings_perm l) as Hperm.
  assert (Hnd' : NoDup (sort_strings l)) by (by rewrite Hperm).
  assert (Hdom : dom (label_from chr 65 (sort_strings l) ∅)
                 = (list_to_set l : gset string)).
  { rewrite label_from_dom, dom_empty_L, (right_id_L ∅ (∪)).
    by rewrite Hperm. }
  split; [done|]. split; [exact Hdom|]. split.
  - rewrite <- size_dom, Hdom. by apply size_list_to_set.
  - intros c Hc. rewrite <- Hperm in Hc.
    apply list_elem_of_lookup in Hc as [k Hk].
    rewrite (label_from_lookup chr 65 _ ∅ k c Hnd' Hk). do 3 f_equal.
    rewrite <- (sorted_position _ k c (sort_strings_sorted l) Hnd' Hk).
    apply Permutation_length. by rewrite Hperm.
Qed.

(** The response [[ref2, ref1]]: [ref1] is labelled [A], [ref2] is
    labelled [B]. *)
Lemma get_controllers_labels_witness :
  NoDup ["ref2"; "ref1"]
  ∧ ∃ d, get_controllers (λ i, String (ascii_of_nat i) "") "1"
                         (inr ["ref2"; "ref1"]) = Returned d
         ∧ d !! "ref1" = Some "A" ∧ d !! "ref2" = Some "B".
Proof.
  assert (Hnd : NoDup ["ref2"; "ref1"]).
  { apply NoDup_cons. split; [|apply NoDup_singleton].
    intros Hin%list_elem_of_singleton. discriminate. }
  split; [exact Hnd|].
  destruct (get_controllers_labels (λ i, String (ascii_of_nat i) "") "1"
              ["ref2"; "ref1"] Hnd) as (d & Hd & _ & _ & Hlabel).
  exists d. split; [exact Hd|]. split.
  - rewrite (Hlabel "ref1") by (right; left). vm_compute. reflexivity.
  - rewrite (Hlabel "ref2") by left. vm_compute. reflexivity.
Defined.

(** ** The enabled features *)

Lemma sorted_strict (l : list string) :
  StronglySorted str_le l → NoDup l → StronglySorted str_lt l.
Proof.
  induction l as [|a l IH]; intros Hsorted Hnd; [constructor|].
  apply StronglySorted_inv in Hsorted as [Hsorted Hall].
  apply NoDup_cons in Hnd as [Ha Hnd].
  constructor; [by apply IH|].
  rewrite Forall_forall in *. intros x Hx. apply str_lt_le.
  split; [by apply Hall|]. by intros ->.
Qed.

(** X16. The list stored under [netapp_enabled_features] is strictly
    increasing (sorted, without repetition) and holds exactly the
    capabilities of the array together with the capabilities of the
    premium features that are enabled. *)
Theorem netapp_enabled_features_spec
    (capabilities : list string) (premiumFeatures : list premium_feature) :
  let features := netapp_enabled_features capabilities premiumFeatures in
  StronglySorted str_lt features
  ∧ ∀ f, f ∈ features
         ↔ f ∈ capabilities
           ∨ ∃ p, p ∈ premiumFeatures ∧ truthy p.(isEnabled) = true
                  ∧ p.(capability) = f.
Proof.
  intros features. subst features. unfold netapp_enabled_features.
  set (all := capabilities
              ++ (capability <$> filter (λ feature, truthy (isEnabled feature) = true)
                                        premiumFeatures)).
  pose proof (sort_strings_perm (elements (list_to_set all : gset string))) as Hperm.
  split.
  - apply sorted_strict; [apply sort_strings_sorted|].
    rewrite Hperm. apply NoDup_elements.
  - intros f. rewrite Hperm, elem_of_elements, elem_of_list_to_set.
    unfold all. rewrite elem_of_app, list_elem_of_fmap.
    split; (intros [Hc|Hp]; [by left|right]).
    + destruct Hp as (p & -> & [Hen Hp]%list_elem_of_filter). by exists p.
    + destruct Hp as (p & Hp & Hen & <-). exists p. split; [done|].
      by apply list_elem_of_filter.
Qed.

(** A capability listed twice and a disabled premium feature. *)
Example netapp_enabled_features_example :
  netapp_enabled_features
    ["stagedDownload"; "asup"]
    [PremiumFeature "asup" (VBool true);
     PremiumFeature "storagePoolsType2" (VBool true);
     PremiumFeature "remoteMirroring" (VBool false)]
  = ["asup"; "stagedDownload"; "storagePoolsType2"].
Proof. vm_compute. reflexivity. Qed.
